(** * Z80Asm: a shallow embedding of the two-pass assembler

    The development follows [src/Z80Asm.py].  Python integers are [Z],
    bytes are [Z] in [0..255], text is [string] (the sources are read with
    the latin_1 codec, one character per byte), dictionaries are [gmap].

    Conventions used throughout:
    - Python lists used as stacks ([enable], [macros], [files], [handles],
      and the two stacks of the expression evaluator) are kept with their
      top, Python's index [-1], at the head of the Rocq list;
    - the fields of [self] live in one record, [Asm], threaded through a
      state monad whose failure case carries what stops the interpreter
      (an uncaught Python exception, [sys.exit], a loop that never ends);
    - the text of a line is taken after [Parse] has split it into label,
      mnemonic and comma-separated fields, and after [ExprParse] has turned
      a field into its term list; listing, echo and the text produced by
      the reformatter are not part of the embedding. *)

From Stdlib Require Import ZArith String Ascii List Lia Bool.
From stdpp Require Import gmap strings list.

#[local] Open Scope string_scope.
#[local] Open Scope Z_scope.

(** ** Python primitives *)

Module Py.

(** The line feed written by ['\n']. *)
Definition nl : string := String (ascii_of_nat 10) EmptyString.

(** [ord] of a latin_1 character. *)
Definition ord (c : ascii) : Z := Z.of_N (N_of_ascii c).

(** [str.lower] on latin_1 text: A-Z, and the accented capitals
    0xC0-0xDE except the multiplication sign 0xD7, move up by 0x20. *)
Definition lower_char (c : ascii) : ascii :=
  let n := N_of_ascii c in
  if ((65 <=? n) && (n <=? 90))%N
     || ((192 <=? n) && (n <=? 222) && negb (n =? 215))%N
  then ascii_of_N (n + 32) else c.

Fixpoint lower (s : string) : string :=
  match s with
  | EmptyString => EmptyString
  | String c s' => String (lower_char c) (lower s')
  end.

(** [str.upper] of one latin_1 character: a-z and the accented small
    letters 0xE0-0xFE except the division sign 0xF7 move down by 0x20, the
    sharp s becomes SS; the micro sign and the y with diaeresis have their
    capitals outside latin_1, where this development does not follow. *)
Definition upper_char (c : ascii) : option string :=
  let n := N_of_ascii c in
  if ((n =? 181) || (n =? 255))%N then None
  else if (n =? 223)%N then Some "SS"
  else if ((97 <=? n) && (n <=? 122))%N
          || ((224 <=? n) && (n <=? 254) && negb (n =? 247))%N
  then Some (String (ascii_of_N (n - 32)) EmptyString)
  else Some (String c EmptyString).

Fixpoint upper (s : string) : option string :=
  match s with
  | EmptyString => Some EmptyString
  | String c s' =>
      match upper_char c, upper s' with
      | Some u, Some us => Some (u ++ us)
      | _, _ => None
      end
  end.

(** The characters of a string, and [s[i]] with Python's negative
    indices. *)
Definition chars (s : string) : list ascii := list_ascii_of_string s.

Definition index (s : string) (i : Z) : option ascii :=
  let n := Z.of_nat (String.length s) in
  let j := if i <? 0 then n + i else i in
  if (j <? 0) || (n <=? j) then None else String.get (Z.to_nat j) s.

(** [needle in hay] on strings. *)
Fixpoint contains (needle hay : string) : bool :=
  String.prefix needle hay
  || match hay with
     | EmptyString => false
     | String _ hay' => contains needle hay'
     end.

(** [sep.join (l)]. *)
Definition join (sep : string) (l : list string) : string :=
  String.concat sep l.

Definition digit_char (d : N) : ascii :=
  if (d <? 10)%N then ascii_of_N (48 + d) else ascii_of_N (55 + d).

(** Digits of [n] in [base], most significant first; [fuel] bounds the
    number of digits. *)
Fixpoint digits (fuel : nat) (base n : N) (acc : string) : string :=
  match fuel with
  | O => acc
  | S fuel' =>
      let acc' := String (digit_char (n mod base)) acc in
      if (n / base =? 0)%N then acc' else digits fuel' base (n / base) acc'
  end.

Definition to_base (base : N) (n : N) : string :=
  digits (S (N.to_nat (N.size n))) base n EmptyString.

Fixpoint zeros (k : nat) : string :=
  match k with O => EmptyString | S k' => String "0" (zeros k') end.

Definition zfill (w : nat) (s : string) : string :=
  zeros (w - String.length s) ++ s.

(** ['{:0wX}'.format (v)]: upper-case hexadecimal, zero padded to [w]
    characters, the sign counting as one of them. *)
Definition fmt_X (w : nat) (v : Z) : string :=
  if v <? 0 then String "-" (zfill (w - 1) (to_base 16 (Z.to_N (- v))))
  else zfill w (to_base 16 (Z.to_N v)).

(** ['{:d}'.format (v)]. *)
Definition fmt_d (v : Z) : string :=
  if v <? 0 then String "-" (to_base 10 (Z.to_N (- v)))
  else to_base 10 (Z.to_N v).

(** [sum] of a list of integers. *)
Definition sum (l : list Z) : Z := fold_left Z.add l 0.

End Py.

(** ** Functions of the module *)

(** The double and the single quote, which the two tests on [ch] name. *)
Definition is_quote (ch : ascii) : bool :=
  Ascii.eqb ch (ascii_of_nat 34) || Ascii.eqb ch (ascii_of_nat 39).

(** What a quote character does to [quote]. *)
Definition toggle_quote (quote : option ascii) (ch : ascii) : option ascii :=
  match quote with
  | None => Some ch
  | Some q => if Ascii.eqb q ch then None else quote
  end.

(** [ch in lFind] for a character and a string. *)
Definition char_in (ch : ascii) (l : string) : bool :=
  Py.contains (String ch EmptyString) l.

(** The loop of [FindChar]: [iCh] is the index of the head of [l]. *)
Fixpoint FindChar_loop (l : list ascii) (lFind : string)
                       (quote : option ascii) (iCh : Z) : Z :=
  match l with
  | [] => -1
  | ch :: rest =>
      if is_quote ch then
        FindChar_loop rest lFind (toggle_quote quote ch) (iCh + 1)
      else if char_in ch lFind && bool_decide (quote = None) then iCh
      else FindChar_loop rest lFind quote (iCh + 1)
  end.

(** [FindChar]: the first of the characters of [lFind] in the line,
    outside quotes, or -1. *)
Definition FindChar (sLine : string) (lFind : string) : Z :=
  FindChar_loop (Py.chars sLine) lFind None 0.

(** The loop of [CountFields]. *)
Fixpoint CountFields_loop (l : list ascii) (lSep : string)
                          (quote : option ascii) (bSep : bool) (nField : Z) : Z :=
  match l with
  | [] => nField
  | ch :: rest =>
      if bool_decide (quote = None) && char_in ch lSep then
        CountFields_loop rest lSep quote true nField
      else
        let nField := if bSep then nField + 1 else nField in
        let quote := if is_quote ch then toggle_quote quote ch else quote in
        CountFields_loop rest lSep quote false nField
  end.

Definition CountFields (sLine : string) (lSep : string) : Z :=
  CountFields_loop (Py.chars sLine) lSep None true 0.

(** ** Intel hex sink ([class HexOut]) *)

Module HexOut.

Record t := mk {
  sFile : string;          (* path of the file *)
  f : string;              (* text written to the file so far *)
  addr : option Z;         (* address of the record being built *)
  data : list Z            (* bytes of the record being built *)
}.

Definition init (sFile : string) : t :=
  {| sFile := sFile; f := ""; addr := None; data := [] |}.

(** The loop of [Write]: the running sum and the text of the record. *)
Definition Write_loop (bytes : list Z) (cs : Z) (sHex : string) : Z * string :=
  fold_left (fun '(cs, sHex) by_ => (cs + by_, sHex ++ Py.fmt_X 2 by_))
            bytes (cs, sHex).

Definition Write (h : t) : t :=
  match addr h with
  | Some a =>
      match data h with
      | [] => h
      | _ :: _ =>
          let n := Z.of_nat (length (data h)) in
          let cs := n + Z.shiftr a 8 + Z.land a 255 in
          let sHex := ":" ++ Py.fmt_X 2 n ++ Py.fmt_X 4 a ++ "00" in
          let '(cs, sHex) := Write_loop (data h) cs sHex in
          let cs := 256 - Z.land cs 255 in
          let sHex := sHex ++ Py.fmt_X 2 cs ++ Py.nl in
          {| sFile := sFile h; f := f h ++ sHex;
             addr := Some (a + n); data := [] |}
      end
  | None => h
  end.

Definition SetAddr (h : t) (a : Z) (bInit : bool) : t :=
  match addr h with
  | None =>
      if bInit
      then {| sFile := sFile h; f := f h; addr := Some a; data := data h |}
      else h
  | Some cur =>
      let h' := if cur + Z.of_nat (length (data h)) =? a then h else Write h in
      {| sFile := sFile h'; f := f h'; addr := Some a; data := data h' |}
  end.

Definition Data_step (h : t) (by_ : Z) : t :=
  let h' := {| sFile := sFile h; f := f h; addr := addr h;
               data := data h ++ [by_] |} in
  if 16 <=? Z.of_nat (length (data h')) then Write h' else h'.

Definition Data (h : t) (ba : list Z) : t :=
  match addr h with
  | Some _ => fold_left Data_step ba h
  | None => h
  end.

(** [Close] up to the end record; closing the file and [os.remove] act on
    the file system and are done by the caller. *)
Definition Close_text (h : t) (a : Z) : t :=
  let h' := Write h in
  let cs := 256 - Z.land (Z.shiftr a 8 + Z.land a 255 + 1) 255 in
  let sHex := ":00" ++ Py.fmt_X 4 a ++ "01" ++ Py.fmt_X 2 cs ++ Py.nl in
  {| sFile := sFile h'; f := f h' ++ sHex; addr := addr h'; data := data h' |}.

End HexOut.

(** ** What stops the interpreter *)

Inductive abort :=
| PyExc (name : string)        (* an exception nobody catches *)
| SysExit (code : Z)           (* [sys.exit] *)
| NeverReturns                 (* a [while] loop that cannot end *)
| NotEmbedded (what : string)  (* source text this development leaves out *)
| OutOfFuel.                   (* the bound given to a driver loop was too small *)

(** ** Binary sink ([class BinOut]) *)

Module BinOut.

Record t := mk {
  sFile : string;      (* path of the file *)
  fbytes : list Z;     (* content of the file *)
  fpos : Z;            (* position of the file object *)
  base : option Z;
  data : list Z;
  fill : Z;
  addr : Z;
  maxaddr : Z
}.

Definition init (sFile : string) (byFill : Z) : t :=
  {| sFile := sFile; fbytes := []; fpos := 0; base := None; data := [];
     fill := byFill; addr := 0; maxaddr := 0 |}.

Definition set_file (b : t) (fb : list Z) (p : Z) : t :=
  {| sFile := sFile b; fbytes := fb; fpos := p; base := base b;
     data := data b; fill := fill b; addr := addr b; maxaddr := maxaddr b |}.

Definition set_data (b : t) (d : list Z) : t :=
  {| sFile := sFile b; fbytes := fbytes b; fpos := fpos b; base := base b;
     data := d; fill := fill b; addr := addr b; maxaddr := maxaddr b |}.

Definition set_addrs (b : t) (bs : option Z) (a m : Z) : t :=
  {| sFile := sFile b; fbytes := fbytes b; fpos := fpos b; base := bs;
     data := data b; fill := fill b; addr := a; maxaddr := m |}.

(** [f.write (bs)] on a file opened with ['wb']: the bytes replace what is
    at the position, a gap left by a seek past the end reads as zeros. *)
Definition f_write (b : t) (bs : list Z) : t :=
  match bs with
  | [] => b
  | _ =>
      let p := Z.to_nat (fpos b) in
      let old := fbytes b in
      let pad := repeat 0 (p - length old) in
      set_file b (take p old ++ pad ++ bs ++ drop (p + length bs) old)
               (fpos b + Z.of_nat (length bs))
  end.

(** [f.seek (p)]; a negative position raises, which is [None] here. *)
Definition f_seek (b : t) (p : Z) : option t :=
  if p <? 0 then None else Some (set_file b (fbytes b) p).

Definition SetFill (b : t) (byFill : Z) : t :=
  {| sFile := sFile b; fbytes := fbytes b; fpos := fpos b; base := base b;
     data := data b; fill := byFill; addr := addr b; maxaddr := maxaddr b |}.

Definition Write (b : t) : t :=
  let b' := match base b, data b with
            | Some _, _ :: _ => f_write b (data b)
            | _, _ => b
            end in
  set_data b' [].

Definition SetAddr (b : t) (a : Z) (bInit : bool) : option t :=
  match base b with
  | None => Some (if bInit then set_addrs b (Some a) a a else b)
  | Some bs =>
      if maxaddr b <? a then
        let b1 := Write b in
        match (if addr b1 <? maxaddr b1 then f_seek b1 (maxaddr b1 - bs)
               else Some b1) with
        | Some b2 =>
            let b3 := f_write b2 (repeat (fill b2) (Z.to_nat (a - maxaddr b2))) in
            Some (set_addrs b3 (base b3) a a)
        | None => None
        end
      else if negb (a =? addr b) then
        match f_seek (Write b) (a - bs) with
        | Some b2 => Some (set_addrs b2 (base b2) a (maxaddr b2))
        | None => None
        end
      else Some b
  end.

Definition Data_step (b : t) (by_ : Z) : t :=
  let b' := set_data b (data b ++ [by_]) in
  if 256 <=? Z.of_nat (length (data b')) then Write b' else b'.

Definition Data (b : t) (ba : list Z) : t :=
  match base b with
  | Some _ =>
      let b1 := fold_left Data_step ba b in
      let a := addr b1 + Z.of_nat (length ba) in
      set_addrs b1 (base b1) a (if maxaddr b1 <? a then a else maxaddr b1)
  | None => b
  end.

End BinOut.

(** ** Data of the assembler *)

Inductive Style := MA | M80 | PASMO | ZASM.
Inductive Cpu := C8080 | Z80 | Z180.
Inductive EvalMode := Full | Simple.    (* [self.eval] 0 and 1 *)
Inductive Seg := SegA | SegC | SegD.    (* ['A'], ['C'], ['D'] *)

#[global] Instance Style_eq_dec : EqDecision Style.
Proof. solve_decision. Defined.
#[global] Instance Cpu_eq_dec : EqDecision Cpu.
Proof. solve_decision. Defined.
#[global] Instance Seg_eq_dec : EqDecision Seg.
Proof. solve_decision. Defined.

(** The dictionaries [pc], [lc] and [base], keyed by segment. *)
Record SegMap := mkSegMap { atA : Z; atC : Z; atD : Z }.

Definition seg_get (m : SegMap) (s : Seg) : Z :=
  match s with SegA => atA m | SegC => atC m | SegD => atD m end.

Definition seg_set (m : SegMap) (s : Seg) (v : Z) : SegMap :=
  match s with
  | SegA => mkSegMap v (atC m) (atD m)
  | SegC => mkSegMap (atA m) v (atD m)
  | SegD => mkSegMap (atA m) (atC m) v
  end.

Definition seg_zero : SegMap := mkSegMap 0 0 0.

(** [class Label].  [seg] is [None] for the empty tag that [Public] gives
    a name it has only declared. *)
Module Label.
Record t := mk {
  name : string;
  seg : option Seg;
  value : option Z;
  file : string;
  line : Z
}.
End Label.

(** Terms of a parsed expression, the tuples built by [ExprParse]. *)
Inductive NumKind := KB | KD | KH | KQ.

Inductive OpTag :=
| UPlus | UMinus | UNot | L2 | LOW | HIGH
| Mul | Div | MOD | SHL | SHR | Add | Sub
| EQ | NE | LT | LE | GE | GT | NOT
| Amp | AND | Bang | OR | Hat | XOR
| LParen | RParen | Comma.

#[global] Instance OpTag_eq_dec : EqDecision OpTag.
Proof. solve_decision. Defined.

Inductive Term :=
| TNum (k : NumKind) (v : Z)     (* [('B', v)], [('D', v)], [('H', v)], [('Q', v)] *)
| TStr (s : string)              (* the tuple of a quoted string *)
| TLab (s : string)              (* [('L', s)] *)
| TOp (o : OpTag).               (* [(op,)] *)

(** A comma-separated field of the operand text: the text itself, as
    [PopArg] returns it, and the term list [ExprParse] makes of it. *)
Record Field := mkField { f_text : string; f_expr : list Term }.

(** A line after [Parse] has cut it up.  [Blank] is an empty line or a
    whole-line comment; otherwise the optional label with its public mark
    ([name::]), the upper-cased mnemonic (empty when the label stands
    alone) and the fields that follow it. *)
Inductive SrcLine :=
| Blank
| Stmt (sLabel : option string) (bPublic : bool) (sOpCode : string)
       (sArgs : list Field).

(** An entry of [self.macros]: [['R', handle, offset, count]]. *)
Record Macro := mkMacro {
  m_type : string; m_handle : nat; m_pos : nat; m_count : Z
}.

(** The fields of [self] (class [Assembler]) that the embedded methods
    read or write, with the file system they act on: [disk] holds the
    source files, [fs] the paths of the output files that exist.
    [labels] is the dictionary [self.labels] points to; [Assemble] keeps
    [locals] in step with it.  The open source file is [fIn], read at
    line [fpos]; [handles] lists the handles opened so far. *)
Record Asm := mkAsm {
  style : Style; cpu_type : Cpu; bStrict : bool; bLabCase : bool;
  eval : EvalMode; lOrgUpd : list string;
  disk : gmap string (list SrcLine);
  phase : Z; nErr : Z;
  sErr : option string; mc : list Z; nSpace : Z;
  enable : list bool;
  pseg : Seg; lseg : Seg; pc : SegMap; lc : SegMap; base : SegMap;
  offset : Z; bUpdate : bool; begin : Z;
  publics : gmap string Label.t; labels : gmap string Label.t;
  locals : gmap nat (gmap string Label.t);
  files : list (string * Z); handles : list nat; macros : list Macro;
  fIn : list SrcLine; fpos : nat;
  binout : option BinOut.t; hexout : option HexOut.t;
  ref_fOut : option string; fs : gset string
}.

(** Assignment to one field of [self]. *)
Definition set_phase (x : Z) (st : Asm) : Asm :=
  mkAsm (style st) (cpu_type st) (bStrict st) (bLabCase st) (eval st)
    (lOrgUpd st) (disk st) x (nErr st) (sErr st) (mc st) (nSpace st) (enable
    st) (pseg st) (lseg st) (pc st) (lc st) (base st) (offset st) (bUpdate
    st) (begin st) (publics st) (labels st) (locals st) (files st) (handles
    st) (macros st) (fIn st) (fpos st) (binout st) (hexout st) (ref_fOut st)
    (fs st).
Definition set_nErr (x : Z) (st : Asm) : Asm :=
  mkAsm (style st) (cpu_type st) (bStrict st) (bLabCase st) (eval st)
    (lOrgUpd st) (disk st) (phase st) x (sErr st) (mc st) (nSpace st)
    (enable st) (pseg st) (lseg st) (pc st) (lc st) (base st) (offset st)
    (bUpdate st) (begin st) (publics st) (labels st) (locals st) (files st)
    (handles st) (macros st) (fIn st) (fpos st) (binout st) (hexout st)
    (ref_fOut st) (fs st).
Definition set_sErr (x : option string) (st : Asm) : Asm :=
  mkAsm (style st) (cpu_type st) (bStrict st) (bLabCase st) (eval st)
    (lOrgUpd st) (disk st) (phase st) (nErr st) x (mc st) (nSpace st)
    (enable st) (pseg st) (lseg st) (pc st) (lc st) (base st) (offset st)
    (bUpdate st) (begin st) (publics st) (labels st) (locals st) (files st)
    (handles st) (macros st) (fIn st) (fpos st) (binout st) (hexout st)
    (ref_fOut st) (fs st).
Definition set_mc (x : list Z) (st : Asm) : Asm :=
  mkAsm (style st) (cpu_type st) (bStrict st) (bLabCase st) (eval st)
    (lOrgUpd st) (disk st) (phase st) (nErr st) (sErr st) x (nSpace st)
    (enable st) (pseg st) (lseg st) (pc st) (lc st) (base st) (offset st)
    (bUpdate st) (begin st) (publics st) (labels st) (locals st) (files st)
    (handles st) (macros st) (fIn st) (fpos st) (binout st) (hexout st)
    (ref_fOut st) (fs st).
Definition set_nSpace (x : Z) (st : Asm) : Asm :=
  mkAsm (style st) (cpu_type st) (bStrict st) (bLabCase st) (eval st)
    (lOrgUpd st) (disk st) (phase st) (nErr st) (sErr st) (mc st) x (enable
    st) (pseg st) (lseg st) (pc st) (lc st) (base st) (offset st) (bUpdate
    st) (begin st) (publics st) (labels st) (locals st) (files st) (handles
    st) (macros st) (fIn st) (fpos st) (binout st) (hexout st) (ref_fOut st)
    (fs st).
Definition set_enable (x : list bool) (st : Asm) : Asm :=
  mkAsm (style st) (cpu_type st) (bStrict st) (bLabCase st) (eval st)
    (lOrgUpd st) (disk st) (phase st) (nErr st) (sErr st) (mc st) (nSpace
    st) x (pseg st) (lseg st) (pc st) (lc st) (base st) (offset st) (bUpdate
    st) (begin st) (publics st) (labels st) (locals st) (files st) (handles
    st) (macros st) (fIn st) (fpos st) (binout st) (hexout st) (ref_fOut st)
    (fs st).
Definition set_pseg (x : Seg) (st : Asm) : Asm :=
  mkAsm (style st) (cpu_type st) (bStrict st) (bLabCase st) (eval st)
    (lOrgUpd st) (disk st) (phase st) (nErr st) (sErr st) (mc st) (nSpace
    st) (enable st) x (lseg st) (pc st) (lc st) (base st) (offset st)
    (bUpdate st) (begin st) (publics st) (labels st) (locals st) (files st)
    (handles st) (macros st) (fIn st) (fpos st) (binout st) (hexout st)
    (ref_fOut st) (fs st).
Definition set_lseg (x : Seg) (st : Asm) : Asm :=
  mkAsm (style st) (cpu_type st) (bStrict st) (bLabCase st) (eval st)
    (lOrgUpd st) (disk st) (phase st) (nErr st) (sErr st) (mc st) (nSpace
    st) (enable st) (pseg st) x (pc st) (lc st) (base st) (offset st)
    (bUpdate st) (begin st) (publics st) (labels st) (locals st) (files st)
    (handles st) (macros st) (fIn st) (fpos st) (binout st) (hexout st)
    (ref_fOut st) (fs st).
Definition set_pc (x : SegMap) (st : Asm) : Asm :=
  mkAsm (style st) (cpu_type st) (bStrict st) (bLabCase st) (eval st)
    (lOrgUpd st) (disk st) (phase st) (nErr st) (sErr st) (mc st) (nSpace
    st) (enable st) (pseg st) (lseg st) x (lc st) (base st) (offset st)
    (bUpdate st) (begin st) (publics st) (labels st) (locals st) (files st)
    (handles st) (macros st) (fIn st) (fpos st) (binout st) (hexout st)
    (ref_fOut st) (fs st).
Definition set_lc (x : SegMap) (st : Asm) : Asm :=
  mkAsm (style st) (cpu_type st) (bStrict st) (bLabCase st) (eval st)
    (lOrgUpd st) (disk st) (phase st) (nErr st) (sErr st) (mc st) (nSpace
    st) (enable st) (pseg st) (lseg st) (pc st) x (base st) (offset st)
    (bUpdate st) (begin st) (publics st) (labels st) (locals st) (files st)
    (handles st) (macros st) (fIn st) (fpos st) (binout st) (hexout st)
    (ref_fOut st) (fs st).
Definition set_base (x : SegMap) (st : Asm) : Asm :=
  mkAsm (style st) (cpu_type st) (bStrict st) (bLabCase st) (eval st)
    (lOrgUpd st) (disk st) (phase st) (nErr st) (sErr st) (mc st) (nSpace
    st) (enable st) (pseg st) (lseg st) (pc st) (lc st) x (offset st)
    (bUpdate st) (begin st) (publics st) (labels st) (locals st) (files st)
    (handles st) (macros st) (fIn st) (fpos st) (binout st) (hexout st)
    (ref_fOut st) (fs st).
Definition set_offset (x : Z) (st : Asm) : Asm :=
  mkAsm (style st) (cpu_type st) (bStrict st) (bLabCase st) (eval st)
    (lOrgUpd st) (disk st) (phase st) (nErr st) (sErr st) (mc st) (nSpace
    st) (enable st) (pseg st) (lseg st) (pc st) (lc st) (base st) x (bUpdate
    st) (begin st) (publics st) (labels st) (locals st) (files st) (handles
    st) (macros st) (fIn st) (fpos st) (binout st) (hexout st) (ref_fOut st)
    (fs st).
Definition set_bUpdate (x : bool) (st : Asm) : Asm :=
  mkAsm (style st) (cpu_type st) (bStrict st) (bLabCase st) (eval st)
    (lOrgUpd st) (disk st) (phase st) (nErr st) (sErr st) (mc st) (nSpace
    st) (enable st) (pseg st) (lseg st) (pc st) (lc st) (base st) (offset
    st) x (begin st) (publics st) (labels st) (locals st) (files st)
    (handles st) (macros st) (fIn st) (fpos st) (binout st) (hexout st)
    (ref_fOut st) (fs st).
Definition set_begin (x : Z) (st : Asm) : Asm :=
  mkAsm (style st) (cpu_type st) (bStrict st) (bLabCase st) (eval st)
    (lOrgUpd st) (disk st) (phase st) (nErr st) (sErr st) (mc st) (nSpace
    st) (enable st) (pseg st) (lseg st) (pc st) (lc st) (base st) (offset
    st) (bUpdate st) x (publics st) (labels st) (locals st) (files st)
    (handles st) (macros st) (fIn st) (fpos st) (binout st) (hexout st)
    (ref_fOut st) (fs st).
Definition set_publics (x : gmap string Label.t) (st : Asm) : Asm :=
  mkAsm (style st) (cpu_type st) (bStrict st) (bLabCase st) (eval st)
    (lOrgUpd st) (disk st) (phase st) (nErr st) (sErr st) (mc st) (nSpace
    st) (enable st) (pseg st) (lseg st) (pc st) (lc st) (base st) (offset
    st) (bUpdate st) (begin st) x (labels st) (locals st) (files st)
    (handles st) (macros st) (fIn st) (fpos st) (binout st) (hexout st)
    (ref_fOut st) (fs st).
Definition set_labels (x : gmap string Label.t) (st : Asm) : Asm :=
  mkAsm (style st) (cpu_type st) (bStrict st) (bLabCase st) (eval st)
    (lOrgUpd st) (disk st) (phase st) (nErr st) (sErr st) (mc st) (nSpace
    st) (enable st) (pseg st) (lseg st) (pc st) (lc st) (base st) (offset
    st) (bUpdate st) (begin st) (publics st) x (locals st) (files st)
    (handles st) (macros st) (fIn st) (fpos st) (binout st) (hexout st)
    (ref_fOut st) (fs st).
Definition set_locals (x : gmap nat (gmap string Label.t)) (st : Asm) : Asm :=
  mkAsm (style st) (cpu_type st) (bStrict st) (bLabCase st) (eval st)
    (lOrgUpd st) (disk st) (phase st) (nErr st) (sErr st) (mc st) (nSpace
    st) (enable st) (pseg st) (lseg st) (pc st) (lc st) (base st) (offset
    st) (bUpdate st) (begin st) (publics st) (labels st) x (files st)
    (handles st) (macros st) (fIn st) (fpos st) (binout st) (hexout st)
    (ref_fOut st) (fs st).
Definition set_files (x : list (string * Z)) (st : Asm) : Asm :=
  mkAsm (style st) (cpu_type st) (bStrict st) (bLabCase st) (eval st)
    (lOrgUpd st) (disk st) (phase st) (nErr st) (sErr st) (mc st) (nSpace
    st) (enable st) (pseg st) (lseg st) (pc st) (lc st) (base st) (offset
    st) (bUpdate st) (begin st) (publics st) (labels st) (locals st) x
    (handles st) (macros st) (fIn st) (fpos st) (binout st) (hexout st)
    (ref_fOut st) (fs st).
Definition set_handles (x : list nat) (st : Asm) : Asm :=
  mkAsm (style st) (cpu_type st) (bStrict st) (bLabCase st) (eval st)
    (lOrgUpd st) (disk st) (phase st) (nErr st) (sErr st) (mc st) (nSpace
    st) (enable st) (pseg st) (lseg st) (pc st) (lc st) (base st) (offset
    st) (bUpdate st) (begin st) (publics st) (labels st) (locals st) (files
    st) x (macros st) (fIn st) (fpos st) (binout st) (hexout st) (ref_fOut
    st) (fs st).
Definition set_macros (x : list Macro) (st : Asm) : Asm :=
  mkAsm (style st) (cpu_type st) (bStrict st) (bLabCase st) (eval st)
    (lOrgUpd st) (disk st) (phase st) (nErr st) (sErr st) (mc st) (nSpace
    st) (enable st) (pseg st) (lseg st) (pc st) (lc st) (base st) (offset
    st) (bUpdate st) (begin st) (publics st) (labels st) (locals st) (files
    st) (handles st) x (fIn st) (fpos st) (binout st) (hexout st) (ref_fOut
    st) (fs st).
Definition set_fIn (x : list SrcLine) (st : Asm) : Asm :=
  mkAsm (style st) (cpu_type st) (bStrict st) (bLabCase st) (eval st)
    (lOrgUpd st) (disk st) (phase st) (nErr st) (sErr st) (mc st) (nSpace
    st) (enable st) (pseg st) (lseg st) (pc st) (lc st) (base st) (offset
    st) (bUpdate st) (begin st) (publics st) (labels st) (locals st) (files
    st) (handles st) (macros st) x (fpos st) (binout st) (hexout st)
    (ref_fOut st) (fs st).
Definition set_fpos (x : nat) (st : Asm) : Asm :=
  mkAsm (style st) (cpu_type st) (bStrict st) (bLabCase st) (eval st)
    (lOrgUpd st) (disk st) (phase st) (nErr st) (sErr st) (mc st) (nSpace
    st) (enable st) (pseg st) (lseg st) (pc st) (lc st) (base st) (offset
    st) (bUpdate st) (begin st) (publics st) (labels st) (locals st) (files
    st) (handles st) (macros st) (fIn st) x (binout st) (hexout st)
    (ref_fOut st) (fs st).
Definition set_binout (x : option BinOut.t) (st : Asm) : Asm :=
  mkAsm (style st) (cpu_type st) (bStrict st) (bLabCase st) (eval st)
    (lOrgUpd st) (disk st) (phase st) (nErr st) (sErr st) (mc st) (nSpace
    st) (enable st) (pseg st) (lseg st) (pc st) (lc st) (base st) (offset
    st) (bUpdate st) (begin st) (publics st) (labels st) (locals st) (files
    st) (handles st) (macros st) (fIn st) (fpos st) x (hexout st) (ref_fOut
    st) (fs st).
Definition set_hexout (x : option HexOut.t) (st : Asm) : Asm :=
  mkAsm (style st) (cpu_type st) (bStrict st) (bLabCase st) (eval st)
    (lOrgUpd st) (disk st) (phase st) (nErr st) (sErr st) (mc st) (nSpace
    st) (enable st) (pseg st) (lseg st) (pc st) (lc st) (base st) (offset
    st) (bUpdate st) (begin st) (publics st) (labels st) (locals st) (files
    st) (handles st) (macros st) (fIn st) (fpos st) (binout st) x (ref_fOut
    st) (fs st).
Definition set_ref_fOut (x : option string) (st : Asm) : Asm :=
  mkAsm (style st) (cpu_type st) (bStrict st) (bLabCase st) (eval st)
    (lOrgUpd st) (disk st) (phase st) (nErr st) (sErr st) (mc st) (nSpace
    st) (enable st) (pseg st) (lseg st) (pc st) (lc st) (base st) (offset
    st) (bUpdate st) (begin st) (publics st) (labels st) (locals st) (files
    st) (handles st) (macros st) (fIn st) (fpos st) (binout st) (hexout st)
    x (fs st).
Definition set_fs (x : gset string) (st : Asm) : Asm :=
  mkAsm (style st) (cpu_type st) (bStrict st) (bLabCase st) (eval st)
    (lOrgUpd st) (disk st) (phase st) (nErr st) (sErr st) (mc st) (nSpace
    st) (enable st) (pseg st) (lseg st) (pc st) (lc st) (base st) (offset
    st) (bUpdate st) (begin st) (publics st) (labels st) (locals st) (files
    st) (handles st) (macros st) (fIn st) (fpos st) (binout st) (hexout st)
    (ref_fOut st) x.

(** ** The state monad of the methods *)

(** A method returns a value and the state it leaves, or stops the
    interpreter in the state reached. *)
Inductive res (A : Type) :=
| Ok (a : A) (st : Asm)
| Abort (e : abort) (st : Asm).
Arguments Ok {A} a st.
Arguments Abort {A} e st.

Definition M (A : Type) : Type := Asm -> res A.

Definition ret {A} (a : A) : M A := fun st => Ok a st.

Definition bind {A B} (m : M A) (k : A -> M B) : M B :=
  fun st => match m st with
            | Ok a st' => k a st'
            | Abort e st' => Abort e st'
            end.

Definition raise {A} (e : abort) : M A := fun st => Abort e st.

Definition gets {A} (p : Asm -> A) : M A := fun st => Ok (p st) st.

Definition modify (g : Asm -> Asm) : M unit := fun st => Ok tt (g st).

Notation "x <- c ;; k" := (bind c (fun x => k))
  (at level 100, c at next level, right associativity).
Notation "c ;; k" := (bind c (fun _ => k))
  (at level 100, right associativity).

(** [when b m]: an [if] without [else]. *)
Definition when (b : bool) (m : M unit) : M unit := if b then m else ret tt.

(** ** Class [Assembler]: tables *)

Module Assembler.

(** A dictionary written as a literal, looked up with [.get]. *)
Fixpoint dict_get {A} (d : list (string * A)) (k : string) : option A :=
  match d with
  | [] => None
  | (k', v) :: d' => if String.eqb k k' then Some v else dict_get d' k
  end.

Definition cond : list (string * Z) :=
  [("NZ", 0); ("Z", 8); ("NC", 16); ("C", 24); ("PO", 32); ("PE", 40);
   ("P", 48); ("M", 56); ("HS", 16); ("LO", 24); ("MI", 56)].

(** The byte strings are written out byte by byte; the entry of RETN
    reads [b'\xED45'] in the source, an escape followed by the two
    characters 4 and 5. *)
Definition op0 : list (string * list Z) :=
  [("CCF", [63]); ("CPD", [237; 169]); ("CPDR", [237; 185]);
   ("CPI", [237; 161]); ("CPIR", [237; 177]); ("CPL", [47]);
   ("DAA", [39]); ("DI", [243]); ("EI", [251]); ("EXX", [217]);
   ("HALT", [118]); ("IND", [237; 170]); ("INDR", [237; 186]);
   ("INI", [237; 162]); ("INIR", [237; 178]); ("LDD", [237; 168]);
   ("LDDR", [237; 184]); ("LDI", [237; 160]); ("LDIR", [237; 176]);
   ("NEG", [237; 68]); ("NOP", [0]); ("OUTD", [237; 171]);
   ("OTDR", [237; 187]); ("OUTI", [237; 163]); ("OTIR", [237; 179]);
   ("RETI", [237; 77]); ("RETN", [237; 52; 53]); ("RLA", [23]);
   ("RLCA", [7]); ("RLD", [237; 111]); ("RRA", [31]); ("RRCA", [15]);
   ("RRD", [237; 103]); ("SCF", [55])].

Definition opC : list (string * (Z * Z)) :=
  [("CALL", (205, 196)); ("JP", (195, 194)); ("JR", (24, 32))].

(** [evLvl]: the binding levels, normal rules first, then the rules of
    the MA simple evaluator. *)
Definition evLvl (m : EvalMode) (o : OpTag) : Z :=
  match m with
  | Full =>
      match o with
      | UPlus | UMinus | UNot | L2 => 9
      | LOW | HIGH => 8
      | Mul | Div | MOD | SHL | SHR => 7
      | Add | Sub => 6
      | EQ | NE | LT | LE | GE | GT => 5
      | NOT => 4
      | Amp | AND => 3
      | Bang | OR | Hat | XOR => 2
      | LParen | RParen => 1
      | Comma => 0
      end
  | Simple =>
      match o with
      | UPlus | UMinus | UNot | L2 => 3
      | LParen | RParen => 1
      | Comma => 0
      | _ => 2
      end
  end.

(** The text of an operator tag. *)
Definition tag_text (o : OpTag) : string :=
  match o with
  | UPlus => "U+" | UMinus => "U-" | UNot => "U~" | L2 => "L2"
  | LOW => "LOW" | HIGH => "HIGH" | Mul => "*" | Div => "/" | MOD => "MOD"
  | SHL => "SHL" | SHR => "SHR" | Add => "+" | Sub => "-"
  | EQ => "EQ" | NE => "NE" | LT => "LT" | LE => "LE" | GE => "GE"
  | GT => "GT" | NOT => "NOT" | Amp => "&" | AND => "AND" | Bang => "!"
  | OR => "OR" | Hat => "^" | XOR => "XOR" | LParen => "(" | RParen => ")"
  | Comma => ","
  end.

(** ** Errors and labels *)

(** [AsmErr]: only the first error of a line is kept. *)
Definition AsmErr (msg : string) : M unit :=
  modify (fun st => match sErr st with
                    | None => set_sErr (Some msg) st
                    | Some _ => st
                    end).

(** [self.enable[-1]]. *)
Definition enable_top : M bool :=
  fun st => match enable st with
            | b :: _ => Ok b st
            | [] => Abort (PyExc "IndexError") st
            end.

(** [(self.phase == 2) and (self.enable[-1])], the right operand read
    only when the left one holds. *)
Definition pass2_enabled : M bool :=
  ph <- gets phase ;;
  if ph =? 2 then enable_top else ret false.

(** Where [Label] found an existing definition. *)
Inductive Where := InPublics | InLocals.

(** The look-up at the head of [Label]: the definition found, if any, and
    the value of [bPublic] after it. *)
Definition Label_find (st : Asm) (sLabel : string) (bPublic : bool)
  : option (Where * Label.t) * bool :=
  let tLoc := match files st with t :: _ => t | [] => ("Command Line", 0) end in
  let sLabel := if bLabCase st then sLabel else Py.lower sLabel in
  match publics st !! sLabel with
  | Some label =>
      if bPublic then (Some (InPublics, label), true)
      else if String.eqb (Label.file label) (fst tLoc)
           then (Some (InPublics, label), true)
           else (None, false)
  | None =>
      if bPublic then (None, true)
      else (pair InLocals <$> labels st !! sLabel, false)
  end.

Definition msg_duplicate (old : Z) (ofile : string) (oline : Z)
                         (new : Z) (nfile : string) (nline : Z) : string :=
  "Duplicate / inconsistent definition of label (0x" ++ Py.fmt_X 4 old
  ++ " in " ++ ofile ++ "/" ++ Py.fmt_d oline ++ ", 0x" ++ Py.fmt_X 4 new
  ++ " in " ++ nfile ++ "/" ++ Py.fmt_d nline ++ ")".

Definition msg_phase (v1 v2 : Z) : string :=
  "Label address not consistent between passes (0x" ++ Py.fmt_X 4 v1
  ++ " in pass 1, 0x" ++ Py.fmt_X 4 v2 ++ " in pass 2)".

(** Writing a label object back where it was found. *)
Definition store_label (w : Where) (key : string) (l : Label.t) (st : Asm) : Asm :=
  match w with
  | InPublics => set_publics (<[key := l]> (publics st)) st
  | InLocals => set_labels (<[key := l]> (labels st)) st
  end.

(** [Label (sLabel, bPublic, value)]; [value = None] stands for the
    current program counter. *)
Definition Label (sLabel : string) (bPublic : bool) (value : option Z) : M unit :=
  fun st =>
  let sName := sLabel in
  let tLoc := match files st with t :: _ => t | [] => ("Command Line", 0) end in
  let sLabel := if bLabCase st then sLabel else Py.lower sLabel in
  let '(seg, value) := match value with
                       | None => (pseg st, seg_get (pc st) (pseg st))
                       | Some v => (SegA, v)
                       end in
  let '(found, bPublic) := Label_find st sName bPublic in
  match found with
  | None =>
      let label := Label.mk sName (Some seg) (Some value) (fst tLoc) (snd tLoc) in
      Ok tt (store_label (if bPublic then InPublics else InLocals) sLabel label st)
  | Some (w, label) =>
      if phase st =? 1 then
        match Label.value label with
        | None =>
            Ok tt (store_label w sLabel
                     (Label.mk (Label.name label) (Some seg) (Some value)
                               (fst tLoc) (snd tLoc)) st)
        | Some old =>
            if bStrict st || negb (old =? value)
            then AsmErr (msg_duplicate old (Label.file label) (Label.line label)
                                       value (fst tLoc) (snd tLoc)) st
            else Ok tt st
        end
      else
        match Label.value label with
        | None => AsmErr "Label value not set in pass 1" st
        | Some old =>
            if negb (old =? value) then AsmErr (msg_phase old value) st
            else Ok tt st
        end
  end.

(** [Public]: a name declared public is entered without segment and
    without value, unless it is there already. *)
Definition Public (sLabel : string) : M unit :=
  fun st =>
  let sName := sLabel in
  let sLabel := if bLabCase st then sLabel else Py.lower sLabel in
  match publics st !! sLabel with
  | Some _ => Ok tt st
  | None =>
      match files st with
      | t :: _ =>
          Ok tt (set_publics
                   (<[sLabel := Label.mk sName None None (fst t) (snd t)]>
                      (publics st)) st)
      | [] => Abort (PyExc "IndexError") st
      end
  end.

(** ** Emitting code *)

(** [Code] on a byte string. *)
Definition Code_bytes (bs : list Z) : M unit :=
  modify (fun st => set_mc (mc st ++ bs) st).

(** [Code] on an integer: [bytearray.append] refuses what is not a byte. *)
Definition Code (byCode : Z) : M unit :=
  if (0 <=? byCode) && (byCode <? 256)
  then modify (fun st => set_mc (mc st ++ [byCode]) st)
  else raise (PyExc "ValueError").

Definition Address (ad : Z) : M unit :=
  let ad := if ad <? 0 then ad + 65536 else ad in
  ph <- gets phase ;;
  if (ph =? 2) && ((ad <? 0) || (65535 <? ad)) then
    AsmErr ("Address " ++ (if ad <? 0
                           then String "-" ("0x" ++ Py.fmt_X 4 (- ad))
                           else "0x" ++ Py.fmt_X 4 ad)
            ++ " out of range") ;;
    Code_bytes [0; 0]
  else
    Code (Z.land ad 255) ;;
    Code (Z.land (Z.shiftr ad 8) 255).

(** ** The expression evaluator *)

(** The value of a quoted string used as a number. *)
Definition str_value (arg : string) : Z :=
  let n := String.length arg in
  if (n =? 0)%nat then 0
  else if (n =? 1)%nat then
    match Py.index arg 0 with Some c => Py.ord c | None => 0 end
  else
    match Py.index arg (-2), Py.index arg (-1) with
    | Some c2, Some c1 => 256 * Py.ord c2 + Py.ord c1
    | _, _ => 0
    end.

(** The loop of [L2]: [while ( w != 0 ): w >>= 1; nBit += 1]. *)
Fixpoint L2_loop (fuel : nat) (w nBit : Z) : option Z :=
  if w =? 0 then Some nBit
  else match fuel with
       | O => None
       | S fuel' => L2_loop fuel' (Z.shiftr w 1) (nBit + 1)
       end.

(** What one pass through the [try] block of [ExprEval] leaves: the value
    stack to go on with, the [break] on an opening bracket, the caught
    [IndexError], or an operator the chain of tests does not know. *)
Inductive OpRes :=
| Done (lValue : list Z)
| Break
| IndexError
| Invalid.

Definition binop (g : Z -> Z -> Z) (lValue : list Z) : OpRes :=
  match lValue with
  | rValue :: l :: rest => Done (g l rValue :: rest)
  | _ => IndexError
  end.

Definition unop (g : Z -> Z) (lValue : list Z) : OpRes :=
  match lValue with
  | l :: rest => Done (g l :: rest)
  | [] => IndexError
  end.

Definition TriArg {A} (tf : bool) (a b : A) : A := if tf then a else b.

Definition ApplyOp (op : OpTag) (lValue : list Z) : M OpRes :=
  match op with
  | Add => ret (binop Z.add lValue)
  | Sub => ret (binop Z.sub lValue)
  | UPlus => ret (Done lValue)
  | UMinus => ret (unop Z.opp lValue)
  | UNot | NOT => ret (unop (fun l => Z.lxor l 65535) lValue)
  | Mul => ret (binop Z.mul lValue)
  | Div =>
      match lValue with
      | rValue :: l :: rest =>
          if rValue =? 0 then raise (PyExc "ZeroDivisionError")
          else ret (Done (l / rValue :: rest))
      | _ => ret IndexError
      end
  | MOD =>
      match lValue with
      | rValue :: l :: rest =>
          if rValue =? 0 then raise (PyExc "ZeroDivisionError")
          else ret (Done (l mod rValue :: rest))
      | _ => ret IndexError
      end
  | HIGH => ret (unop (fun l => Z.shiftr l 8) lValue)
  | LOW => ret (unop (fun l => Z.land l 255) lValue)
  | SHL =>
      match lValue with
      | rValue :: rest =>
          if 0 <=? rValue
          then ret (unop (fun l => Z.land (Z.shiftl l rValue) 65535) rest)
          else AsmErr ("Negative shift value: " ++ Py.fmt_d rValue) ;;
               ret (Done rest)
      | [] => ret IndexError
      end
  | SHR =>
      match lValue with
      | rValue :: rest =>
          if 0 <=? rValue
          then ret (unop (fun l => Z.shiftr l rValue) rest)
          else AsmErr ("Negative shift value: " ++ Py.fmt_d rValue) ;;
               ret (Done rest)
      | [] => ret IndexError
      end
  | L2 =>
      match lValue with
      | l :: rest =>
          if l <? 0 then raise NeverReturns
          else match L2_loop (S (Z.to_nat (Z.log2 l))) (Z.shiftr l 1) 0 with
               | Some nBit => ret (Done (nBit :: rest))
               | None => raise NeverReturns
               end
      | [] => ret IndexError
      end
  | EQ => ret (binop (fun l r => TriArg (l =? r) 65535 0) lValue)
  | NE => ret (binop (fun l r => TriArg (negb (l =? r)) 65535 0) lValue)
  | LT => ret (binop (fun l r => TriArg (l <? r) 65535 0) lValue)
  | LE => ret (binop (fun l r => TriArg (l <=? r) 65535 0) lValue)
  | GE => ret (binop (fun l r => TriArg (r <=? l) 65535 0) lValue)
  | GT => ret (binop (fun l r => TriArg (r <? l) 65535 0) lValue)
  | Amp | AND => ret (binop Z.land lValue)
  | Bang | OR => ret (binop Z.lor lValue)
  | Hat | XOR => ret (binop Z.lxor lValue)
  | LParen => ret Break
  | RParen | Comma => ret Invalid
  end.

(** The [while ( lOp )] loop: what it leaves to the rest of the iteration,
    or the [return 0] of its error paths.  [op] is the local variable of
    that name, which keeps its value from one term to the next. *)
Inductive Unwound :=
| Go (lOp : list (Z * OpTag)) (lValue : list Z) (op : option OpTag)
| Return0.

Fixpoint Unwind (rl : Z) (lOp : list (Z * OpTag)) (lValue : list Z)
                (op : option OpTag) : M Unwound :=
  match lOp with
  | [] => ret (Go lOp lValue op)
  | (lvl, o) :: lOp' =>
      if lvl <? rl then ret (Go lOp lValue op)
      else
        r <- ApplyOp o lValue ;;
        match r with
        | Done lValue' => Unwind rl lOp' lValue' (Some o)
        | Break => ret (Go lOp' lValue (Some o))
        | IndexError => AsmErr "Expression evaluation error" ;; ret Return0
        | Invalid =>
            AsmErr ("Invalid expression operator: " ++ tag_text o) ;;
            ret Return0
        end
  end.

(** The test after the [for] loop. *)
Definition ExprEval_end (lOp : list (Z * OpTag)) (lValue : list Z) : M Z :=
  match lOp, lValue with
  | [], [v] => ret v
  | _, _ => AsmErr "Expression evaluation error" ;; ret 0
  end.

(** The value of a label term, [None] when it has none. *)
Definition label_value (arg : string) : M (option Z) :=
  fun st =>
  let label := match labels st !! arg with
               | Some l => Some l
               | None => publics st !! arg
               end in
  match label with
  | Some l =>
      match Label.value l with
      | Some v =>
          match Label.seg l with
          | Some s => Ok (Some (v + seg_get (base st) s)) st
          | None => Abort (PyExc "KeyError") st
          end
      | None => Ok None st
      end
  | None => Ok None st
  end.

Fixpoint ExprEval_loop (lExpr : list Term) (lValue : list Z)
                       (lOp : list (Z * OpTag)) (op : option OpTag) : M Z :=
  match lExpr with
  | [] => ExprEval_end lOp lValue
  | TNum _ arg :: rest => ExprEval_loop rest (arg :: lValue) lOp op
  | TStr arg :: rest => ExprEval_loop rest (str_value arg :: lValue) lOp op
  | TLab arg :: rest =>
      cs <- gets bLabCase ;;
      let arg := if cs then arg else Py.lower arg in
      rValue <- label_value arg ;;
      match rValue with
      | Some v => ExprEval_loop rest (v :: lValue) lOp op
      | None =>
          b <- pass2_enabled ;;
          if b then AsmErr ("Undefined label: " ++ arg) ;; ret 0
          else ExprEval_loop rest (0 :: lValue) lOp op
      end
  | TOp LParen :: rest =>
      m <- gets eval ;;
      ExprEval_loop rest lValue ((evLvl m LParen, LParen) :: lOp) op
  | TOp term :: rest =>
      m <- gets eval ;;
      u <- Unwind (evLvl m term) lOp lValue op ;;
      match u with
      | Return0 => ret 0
      | Go lOp lValue op =>
          match term with
          | RParen =>
              match op with
              | None => raise (PyExc "UnboundLocalError")
              | Some LParen => ExprEval_loop rest lValue lOp op
              | Some _ => AsmErr "Mismatched brackets" ;; ret 0
              end
          | Comma => ExprEval_end lOp lValue
          | _ => ExprEval_loop rest lValue ((evLvl m term, term) :: lOp) op
          end
      end
  end.

Definition ExprEval (lExpr : list Term) : M Z := ExprEval_loop lExpr [] [] None.

(** [EvalArith] on the term list [ExprParse] made of its argument. *)
Definition EvalArith (lExpr : list Term) : M Z := ExprEval lExpr.

Definition EvalArith16 (lExpr : list Term) : M Z :=
  value <- EvalArith lExpr ;;
  if (-32768 <=? value) && (value <=? 65535) then ret (Z.land value 65535)
  else
    b <- pass2_enabled ;;
    when b (AsmErr "Invalid 16-bit value") ;;
    ret 0.

Definition EvalArithS8 (lExpr : list Term) (sErr : string) : M Z :=
  value <- EvalArith lExpr ;;
  if (-128 <=? value) && (value <=? 127) then ret (Z.land value 255)
  else
    b <- pass2_enabled ;;
    when b (AsmErr sErr) ;;
    ret 0.

Definition EvalArith8 (lExpr : list Term) (sErr : string) : M Z :=
  value <- EvalArith lExpr ;;
  if (65280 <=? value) && (value <=? 65535) then ret (Z.land value 255)
  else if (-128 <? value) && (value <=? 255) then ret (Z.land value 255)
  else
    b <- pass2_enabled ;;
    when b (AsmErr sErr) ;;
    ret 0.

Definition EvalArithU8 (lExpr : list Term) (sErr : string) : M Z :=
  value <- EvalArith lExpr ;;
  if (0 <=? value) && (value <=? 255) then ret (Z.land value 255)
  else
    b <- pass2_enabled ;;
    when b (AsmErr (sErr ++ ": 0x" ++ Py.fmt_X 4 value)) ;;
    ret 0.

(** ** Operand text *)

(** Reading one expression off the operand text with [bUpdate] set: the
    term list of the first field, the other fields left in [self.sArgs].
    Of an empty text [ExprParse] makes the lone end mark. *)
Definition next_expr (sArgs : list Field) : list Term * list Field :=
  match sArgs with
  | [] => ([TOp Comma], [])
  | fld :: rest => (f_expr fld, rest)
  end.

(** Reading the whole operand text as one expression, [bUpdate] not set;
    text after a first field gives an error whose wording needs the text
    as typed, which the embedding does not keep. *)
Definition whole_expr (sArgs : list Field) : M (list Term) :=
  match sArgs with
  | [] => ret [TOp Comma]
  | [fld] => ret (f_expr fld)
  | _ => raise (NotEmbedded "Unexpected parameters")
  end.

(** The operand text itself, fields joined by a comma. *)
Definition args_text (sArgs : list Field) : string :=
  Py.join "," (map f_text sArgs).

(** [s.upper ()] where the capitals stay inside latin_1. *)
Definition upper (s : string) : M string :=
  match Py.upper s with
  | Some u => ret u
  | None => raise (NotEmbedded "upper outside latin_1")
  end.

Definition EvalString (sArgs : list Field) : M (list Z) :=
  let lExpr := fst (next_expr sArgs) in
  match lExpr with
  | [TStr s; _] =>
      sty <- gets style ;;
      match sty with
      | ZASM => raise (NotEmbedded "ZASM string escapes")
      | _ => ret (map Py.ord (Py.chars s))
      end
  | _ =>
      value <- ExprEval lExpr ;;
      b <- pass2_enabled ;;
      if b && (255 <? value) && (value <? 65408) then
        AsmErr ("Invalid byte value: " ++ args_text sArgs ++ " = 0x"
                ++ Py.fmt_X 2 value) ;;
        ret [0]
      else ret [Z.land value 255]
  end.

(** ** Load address *)

Definition SetLoad (addr : Z) (bInit : bool) : M unit :=
  upd <- gets bUpdate ;;
  cur <- gets (fun st => seg_get (lc st) (lseg st)) ;;
  when (negb upd && (addr <? cur))
       (AsmErr "Potential overwite of previous code") ;;
  modify (fun st => set_lc (seg_set (lc st) (lseg st) addr) st) ;;
  ph <- gets phase ;;
  if ph =? 2 then
    (fun st =>
       match binout st with
       | Some b =>
           match BinOut.SetAddr b (seg_get (lc st) (lseg st)) bInit with
           | Some b' => Ok tt (set_binout (Some b') st)
           | None => Abort (PyExc "OSError") st
           end
       | None => Ok tt st
       end) ;;
    modify (fun st =>
              match hexout st with
              | Some h =>
                  set_hexout
                    (Some (HexOut.SetAddr h (seg_get (lc st) (lseg st)) bInit)) st
              | None => st
              end)
  else ret tt.

(** ** [Parse] *)

(** What [Parse] returns: ['I'], ['X'] or nothing. *)
Inductive Action := ActI | ActX.

(** The first statements of [Parse]. *)
Definition Parse_begin : M unit :=
  modify (fun st => set_nSpace 0 (set_mc [] (set_sErr None st))).

(** The automatic label [$]. *)
Definition AutoLabel : M unit :=
  fun st =>
  match labels st !! "$" with
  | None => Abort (PyExc "KeyError") st
  | Some auto =>
      match files st with
      | [] => Abort (PyExc "IndexError") st
      | (_, n) :: _ =>
          Ok tt (set_labels
                   (<["$" := Label.mk (Label.name auto) (Some (pseg st))
                                      (Some (seg_get (pc st) (pseg st)))
                                      (Label.file auto) n]> (labels st)) st)
      end
  end.

(** [self.pc[self.pseg] = v]. *)
Definition set_PC (v : Z) : M unit :=
  modify (fun st => set_pc (seg_set (pc st) (pseg st) v) st).

Definition get_PC : M Z := gets (fun st => seg_get (pc st) (pseg st)).
Definition get_LC : M Z := gets (fun st => seg_get (lc st) (lseg st)).

(** [self.bUpdate = name in self.lOrgUpd]. *)
Definition set_update (name : string) : M unit :=
  modify (fun st => set_bUpdate (bool_decide (name ∈ lOrgUpd st)) st).

(** The conditional directives. *)
Definition Parse_IF (sArgs : list Field) (want_zero : bool) : M unit :=
  b <- enable_top ;;
  c <- (if b then
          v <- EvalArith16 (fst (next_expr sArgs)) ;;
          ret (if want_zero then v =? 0 else negb (v =? 0))
        else ret false) ;;
  modify (fun st => set_enable (c :: enable st) st).

Definition Parse_ELSE : M unit :=
  en <- gets enable ;;
  match en with
  | e1 :: e2 :: rest =>
      modify (set_enable ((e2 && negb e1) :: e2 :: rest))
  | _ => AsmErr "ELSE without IF"
  end.

Definition Parse_ENDIF : M unit :=
  en <- gets enable ;;
  match en with
  | _ :: e2 :: rest => modify (set_enable (e2 :: rest))
  | _ => AsmErr "ENDIF with no corresponding IF"
  end.

(** [REPT] and [ENDM]. *)
Definition Parse_REPT (sArgs : list Field) : M unit :=
  b <- enable_top ;;
  when b
    (nRept <- EvalArith (fst (next_expr sArgs)) ;;
     when (0 <? nRept)
       (fun st =>
          match handles st with
          | h :: _ =>
              Ok tt (set_macros (mkMacro "R" h (fpos st) nRept :: macros st) st)
          | [] => Abort (PyExc "IndexError") st
          end)).

Definition Parse_ENDM : M unit :=
  ms <- gets macros ;;
  match ms with
  | [] => AsmErr "ENDM without macro"
  | macro :: ms' =>
      modify (set_macros ms') ;;
      when (String.eqb (m_type macro) "R")
        (let n := m_count macro - 1 in
         when (0 <? n)
           (fun st =>
              match handles st with
              | [] => Abort (PyExc "IndexError") st
              | h :: _ =>
                  if negb (m_handle macro =? h)%nat
                  then AsmErr "Start and end of macro in different files" st
                  else Ok tt (set_macros
                                (mkMacro (m_type macro) (m_handle macro)
                                         (m_pos macro) n :: macros st)
                                (set_fpos (m_pos macro) st))
              end))
  end.

(** The origin directives of a style: [Some] of what the directive does,
    [None] when the mnemonic is not an origin directive of that style. *)
Definition Parse_origin (sty : Style) (sOpCode : string) (sArgs : list Field)
  : option (M unit) :=
  match sty with
  | MA =>
      if String.eqb sOpCode "ORG" then Some (
        set_update "ORG" ;;
        address <- EvalArith (fst (next_expr sArgs)) ;;
        b <- enable_top ;;
        when b (SetLoad address true ;;
                l <- get_LC ;; off <- gets offset ;; set_PC (l + off)))
      else if String.eqb sOpCode "BORG" then Some (
        set_update "BORG" ;;
        address <- EvalArith16 (fst (next_expr sArgs)) ;;
        b <- enable_top ;;
        when b (set_PC address ;;
                p <- get_PC ;; off <- gets offset ;; SetLoad (p - off) true))
      else if String.eqb sOpCode "OFFSET" then Some (
        set_update "OFFSET" ;;
        match sArgs with
        | _ :: _ =>
            address <- EvalArith16 (fst (next_expr sArgs)) ;;
            b <- enable_top ;;
            when b (modify (set_pseg SegA) ;; set_PC address)
        | [] =>
            b <- enable_top ;;
            when b (modify (fun st => set_pseg (lseg st) st) ;;
                    l <- get_LC ;; set_PC l)
        end ;;
        b <- enable_top ;;
        when b (p <- get_PC ;; l <- get_LC ;; modify (set_offset (p - l))))
      else None
  | M80 | PASMO =>
      if String.eqb sOpCode "ORG" then Some (
        set_update "ORG" ;;
        address <- EvalArith (fst (next_expr sArgs)) ;;
        b <- enable_top ;;
        when b (SetLoad address true ;; l <- get_LC ;; set_PC l))
      else if String.eqb sOpCode ".PHASE" then Some (
        set_update "PHASE" ;;
        address <- EvalArith16 (fst (next_expr sArgs)) ;;
        b <- enable_top ;;
        when b (modify (set_pseg SegA) ;; set_PC address))
      else if String.eqb sOpCode ".DEPHASE" then Some (
        set_update "DEPHASE" ;;
        b <- enable_top ;;
        when b (modify (fun st => set_pseg (lseg st) st) ;;
                l <- get_LC ;; set_PC l))
      else None
  | ZASM =>
      if String.eqb sOpCode "LOAD" then Some (
        set_update "LOAD" ;;
        address <- EvalArith (fst (next_expr sArgs)) ;;
        b <- enable_top ;;
        when b (SetLoad address true))
      else if String.eqb sOpCode "ORG" then Some (
        set_update "ORG" ;;
        address <- EvalArith16 (fst (next_expr sArgs)) ;;
        b <- enable_top ;;
        when b (set_PC address))
      else None
  end.

(** [while ( self.sArgs > '' ): self.Code (self.EvalString (self.sArgs, True))] *)
Fixpoint Define_bytes (sArgs : list Field) : M unit :=
  match sArgs with
  | [] => ret tt
  | _ :: rest =>
      bs <- EvalString sArgs ;;
      Code_bytes bs ;;
      Define_bytes rest
  end.

(** [while ( self.sArgs > '' ): self.Address (self.EvalArith16 (self.sArgs, True))] *)
Fixpoint Define_words (sArgs : list Field) : M unit :=
  match sArgs with
  | [] => ret tt
  | fld :: rest =>
      v <- EvalArith16 (f_expr fld) ;;
      Address v ;;
      Define_words rest
  end.

(** [self.nSpace = value] inside an enabled block. *)
Definition reserve (value : Z) : M unit :=
  b <- enable_top ;;
  when b (modify (set_nSpace value)).

(** The data directives: [Some] of what the directive does, [None] when
    the mnemonic is not one of those embedded. *)
Definition Parse_data (sOpCode : string) (sArgs : list Field)
  : option (M unit) :=
  if String.eqb sOpCode "DB" || String.eqb sOpCode "DEFB" then
    Some (Define_bytes sArgs)
  else if String.eqb sOpCode "DW" || String.eqb sOpCode "DEFW" then
    Some (Define_words sArgs)
  else if String.eqb sOpCode "DS" || String.eqb sOpCode "DEFS" then Some (
    sty <- gets style ;;
    match sty with
    | M80 | PASMO =>
        value <- EvalArith16 (fst (next_expr sArgs)) ;;
        reserve value
    | _ => Define_bytes sArgs
    end)
  else if String.eqb sOpCode "BYTE" || String.eqb sOpCode "WORD" then Some (
    value <- EvalArith16 (fst (next_expr sArgs)) ;;
    reserve (if String.eqb sOpCode "WORD" then value * 2 else value))
  else if Py.contains sOpCode "ALIGN" then Some (
    value <- EvalArith16 (fst (next_expr sArgs)) ;;
    if value <? 0 then AsmErr "Invalid alignment"
    else
      b <- enable_top ;;
      when b
        (p <- get_PC ;;
         if value =? 0 then raise (PyExc "ZeroDivisionError")
         else
           let pad := p mod value in
           when (0 <? pad) (modify (set_nSpace (value - pad)))))
  else if String.eqb sOpCode "ZERO" then Some (
    value <- EvalArith16 (fst (next_expr sArgs)) ;;
    Code_bytes (repeat 0 (Z.to_nat value)))
  else None.

(** Calls and jumps: the branch of [Parse] entered when [opC] knows the
    mnemonic. *)
Definition Parse_jump (sOpCode : string) (byCode : Z * Z) (sArgs : list Field)
  : M unit :=
  (* byCode, byCond, the name of the condition, the operand text left *)
  head <-
    (match sArgs with
     | [fld] =>
         if String.eqb sOpCode "JP" then
           sArg1 <- upper (f_text fld) ;;
           if String.eqb sArg1 "(HL)" then Code 233 ;; ret None
           else if String.eqb sArg1 "(IX)" then Code_bytes [221; 233] ;; ret None
           else if String.eqb sArg1 "(IY)" then Code_bytes [253; 233] ;; ret None
           else ret (Some (fst byCode, 0, "", sArgs))
         else ret (Some (fst byCode, 0, "", sArgs))
     | [] =>
         AsmErr "Missing argument" ;;
         AsmErr "Invalid condition code: " ;;
         ret None
     | fld :: rest =>
         sArg1 <- upper (f_text fld) ;;
         match dict_get cond sArg1 with
         | None => AsmErr ("Invalid condition code: " ++ sArg1) ;; ret None
         | Some byCond => ret (Some (snd byCode + byCond, byCond, sArg1, rest))
         end
     end) ;;
  match head with
  | None => ret tt
  | Some (byCode, byCond, sArg1, sArgs) =>
      lExpr <- whole_expr sArgs ;;
      address <- EvalArith16 lExpr ;;
      if String.eqb sOpCode "JR" then
        if 32 <=? byCond then
          AsmErr ("Condition code not supported by JR: " ++ sArg1)
        else
          p <- get_PC ;;
          bs <- gets (fun st => seg_get (base st) (pseg st)) ;;
          let address := address - (p + bs + 2) in
          b <- pass2_enabled ;;
          address <-
            (if b && ((address <? -128) || (127 <? address)) then
               AsmErr ("Relative jump out of range: " ++ Py.fmt_d address) ;;
               ret 0
             else ret address) ;;
          Code byCode ;;
          Code (Z.land address 255)
      else
        Code byCode ;;
        Address address
  end.

Definition Parse_DJNZ (sArgs : list Field) : M unit :=
  lExpr <- whole_expr sArgs ;;
  address <- EvalArith16 lExpr ;;
  p <- get_PC ;;
  bs <- gets (fun st => seg_get (base st) (pseg st)) ;;
  let address := address - (p + bs + 2) in
  Code 16 ;;
  Code (Z.land address 255) ;;
  b <- pass2_enabled ;;
  when (b && ((address <? -128) || (127 <? address)))
       (AsmErr ("Relative jump out of range: " ++ Py.fmt_d address)).

(** The Z80 mnemonics embedded: those without operand, the calls and
    jumps, and [DJNZ]. *)
Definition Parse_Z80 (sOpCode : string) (sArgs : list Field) : M unit :=
  match dict_get op0 sOpCode with
  | Some byCode =>
      match sArgs with
      | _ :: _ => AsmErr "Unexpected arguments to opcode"
      | [] => Code_bytes byCode
      end
  | None =>
      let sOpCode := if String.eqb sOpCode "JMP" then "JP" else sOpCode in
      match dict_get opC sOpCode with
      | Some byCode => Parse_jump sOpCode byCode sArgs
      | None =>
          if String.eqb sOpCode "DJNZ" then Parse_DJNZ sArgs
          else raise (NotEmbedded sOpCode)
      end
  end.

(** The branch of [EQU]. *)
Definition Parse_EQU (sLabel : option string) (bPublic : bool)
                     (sArgs : list Field) : M unit :=
  match sLabel with
  | None => AsmErr "EQUate with no label"
  | Some sLabel =>
      b <- enable_top ;;
      when b (eq <- EvalArith (fst (next_expr sArgs)) ;;
              Label sLabel bPublic (Some eq))
  end.

(** [if ( sLabel ): if ( self.enable[-1] ): self.Label (sLabel, bPublic)] *)
Definition Parse_label (sLabel : option string) (bPublic : bool) : M unit :=
  match sLabel with
  | Some sLabel =>
      if String.eqb sLabel "" then ret tt
      else b <- enable_top ;; when b (Label sLabel bPublic None)
  | None => ret tt
  end.

Definition Parse_END (sArgs : list Field) : M (option Action) :=
  b <- enable_top ;;
  if b then
    match sArgs with
    | _ :: _ =>
        v <- EvalArith16 (fst (next_expr sArgs)) ;;
        modify (set_begin v)
    | [] => ret tt
    end ;;
    ret (Some ActX)
  else ret None.

(** The chain of tests on the mnemonic.  Mnemonics whose branch is not
    embedded end in [NotEmbedded]; none of them is tested by the source
    in a way that would catch a mnemonic embedded here. *)
Definition Parse_op (sOpCode : string) (sArgs : list Field)
  : M (option Action) :=
  if String.eqb sOpCode "END" then Parse_END sArgs
  else if String.eqb sOpCode "IF" || String.eqb sOpCode "IFT" then
    Parse_IF sArgs false ;; ret None
  else if String.eqb sOpCode "IFF" || String.eqb sOpCode "IFNOT" then
    Parse_IF sArgs true ;; ret None
  else if String.eqb sOpCode "ELSE" then Parse_ELSE ;; ret None
  else if String.eqb sOpCode "ENDIF" then Parse_ENDIF ;; ret None
  else if String.eqb sOpCode "REPT" then Parse_REPT sArgs ;; ret None
  else if String.eqb sOpCode "ENDM" then Parse_ENDM ;; ret None
  else
    sty <- gets style ;;
    match Parse_origin sty sOpCode sArgs with
    | Some m => m ;; ret None
    | None =>
        match Parse_data sOpCode sArgs with
        | Some m => m ;; ret None
        | None =>
            cpu <- gets cpu_type ;;
            match cpu with
            | C8080 => raise (NotEmbedded sOpCode)
            | _ => Parse_Z80 sOpCode sArgs ;; ret None
            end
        end
    end.

(** [Parse] after the line has been cut up. *)
Definition Parse_stmt (sLabel : option string) (bPublic : bool)
                      (sOpCode : string) (sArgs : list Field)
  : M (option Action) :=
  if String.eqb sOpCode "EQU" then Parse_EQU sLabel bPublic sArgs ;; ret None
  else
    Parse_label sLabel bPublic ;;
    if String.eqb sOpCode "" then ret None
    else Parse_op sOpCode sArgs.

Definition Parse (sLine : SrcLine) : M (option Action) :=
  Parse_begin ;;
  match sLine with
  | Blank => ret None
  | Stmt sLabel bPublic sOpCode sArgs =>
      AutoLabel ;;
      Parse_stmt sLabel bPublic sOpCode sArgs
  end.

(** ** [AsmPass] *)

(** The statements of the loop of [AsmPass] that follow [Parse]: the
    error is counted, and inside an enabled block the code goes to the
    sinks and both counters move on. *)
Definition count_error : M unit :=
  modify (fun st => match sErr st with
                    | Some _ => set_nErr (nErr st + 1) st
                    | None => st
                    end).

Definition emit : M unit :=
  b <- enable_top ;;
  when b
    (code <- gets mc ;;
     let nCode := Z.of_nat (length code) in
     when (0 <? nCode)
       (l <- get_LC ;;
        SetLoad l false ;;
        modify (fun st => match binout st with
                          | Some bo => set_binout (Some (BinOut.Data bo code)) st
                          | None => st
                          end) ;;
        modify (fun st => match hexout st with
                          | Some h => set_hexout (Some (HexOut.Data h code)) st
                          | None => st
                          end)) ;;
     space <- gets nSpace ;;
     let nCode := nCode + space in
     modify (fun st => set_pc (seg_set (pc st) (pseg st)
                                       (seg_get (pc st) (pseg st) + nCode)) st) ;;
     modify (fun st => set_lc (seg_set (lc st) (lseg st)
                                       (seg_get (lc st) (lseg st) + nCode)) st)).

(** One source line: [Parse] and what the loop does with its result. *)
Definition AsmLine (sLine : SrcLine) : M (option Action) :=
  action <- Parse sLine ;;
  count_error ;;
  emit ;;
  ret action.

(** [fIn.readline ()], [None] at the end of the file. *)
Definition readline : M (option SrcLine) :=
  fun st => match fIn st !! fpos st with
            | Some l => Ok (Some l) (set_fpos (S (fpos st)) st)
            | None => Ok None st
            end.

(** [self.files[-1][1] += 1] *)
Definition count_line : M unit :=
  fun st => match files st with
            | (nm, n) :: rest => Ok tt (set_files ((nm, n + 1) :: rest) st)
            | [] => Abort (PyExc "IndexError") st
            end.

(** The [while (True)] loop of [AsmPass], bounded by [fuel] lines. *)
Fixpoint AsmPass_loop (fuel : nat) : M unit :=
  match fuel with
  | O => raise OutOfFuel
  | S fuel' =>
      sLine <- readline ;;
      match sLine with
      | None => ret tt
      | Some sLine =>
          count_line ;;
          action <- AsmLine sLine ;;
          match action with
          | Some ActI => raise (NotEmbedded "INCLUDE")
          | Some ActX => ret tt
          | None => AsmPass_loop fuel'
          end
      end
  end.

(** What [AsmPass] does before and after its loop. *)
Definition AsmPass_open (sInput : string) : M nat :=
  modify (fun st => set_files ((sInput, 0) :: files st) st) ;;
  modify (fun st => match labels st !! "$" with
                    | Some _ => st
                    | None =>
                        set_labels (<["$" := Label.mk "$" (Some SegA) (Some 0)
                                                      sInput 0]> (labels st)) st
                    end) ;;
  nEnable <- gets (fun st => length (enable st)) ;;
  (fun st => match disk st !! sInput with
             | Some lines =>
                 Ok tt (set_fpos 0 (set_fIn lines
                          (set_handles (length (handles st) :: handles st) st)))
             | None => Abort (PyExc "FileNotFoundError") st
             end) ;;
  ret nEnable.

Definition AsmPass_close (nEnable : nat) : M unit :=
  en <- gets enable ;;
  sty <- gets style ;;
  when (negb (nEnable =? length en)%nat)
       (match sty with
        | MA =>
            if (nEnable <? length en)%nat
            then modify (set_enable (drop (length en - nEnable) en))
            else modify (fun st => set_nErr (nErr st + 1) st)
        | _ => modify (fun st => set_nErr (nErr st + 1) st)
        end) ;;
  modify (fun st => set_files (tail (files st)) st).

Definition AsmPass (fuel : nat) (sInput : string) : M unit :=
  nEnable <- AsmPass_open sInput ;;
  AsmPass_loop fuel ;;
  AsmPass_close nEnable.

(** ** [Assemble] *)

(** The command line as [Assemble] uses it.  The names in [source] are
    taken with their extension, the files of the list, the symbol table
    and the build number are not asked for, and [simple] says whether the
    file type of an MA source selects the left-to-right evaluator. *)
Record Args := mkArgs {
  a_style : Style;
  a_cpu_type : Cpu;
  a_permissive : bool;
  a_update : list string;
  a_binary : option string;
  a_hex : option string;
  a_output : option string;
  a_fill : Z;
  a_cseg : option Z;
  a_dseg : option Z;
  a_define : list (string * Z);
  a_source : list string;
  a_simple : bool
}.

(** [if ( args.binary ):] and the like: a name that is given and not
    empty. *)
Definition given (o : option string) : option string :=
  match o with
  | Some s => if String.eqb s "" then None else Some s
  | None => None
  end.

(** The loop over [args.update]. *)
Definition update_opts (upd : list string) : list string * bool :=
  fold_left (fun '(l, b) sUpd =>
               if String.eqb sUpd "ALL"
               then (["ORG"; "BORG"; "OFFSET"; "PHASE"; "DEPHASE"; "LOAD"], true)
               else ((l ++ [sUpd])%list, b))
            upd ([], false).

(** The object as [__init__] and the first lines of [Assemble] set it
    up, in a world with the source files [dsk] and the output files
    [files0]. *)
Definition init (args : Args) (dsk : gmap string (list SrcLine))
                (files0 : gset string) : Asm :=
  {| style := a_style args; cpu_type := a_cpu_type args;
     bStrict := negb (a_permissive args)
                && negb (bool_decide (a_style args = MA));
     bLabCase := bool_decide (a_style args = M80);
     eval := if bool_decide (a_style args = MA) && a_simple args
             then Simple else Full;
     lOrgUpd := fst (update_opts (a_update args));
     disk := dsk;
     phase := 0; nErr := 0;
     sErr := None; mc := []; nSpace := 0;
     enable := [];
     pseg := SegA; lseg := SegA;
     pc := seg_zero; lc := seg_zero;
     base := mkSegMap 0 (default 0 (a_cseg args)) (default 0 (a_dseg args));
     offset := 0; bUpdate := snd (update_opts (a_update args)); begin := 0;
     publics := ∅; labels := ∅; locals := ∅;
     files := []; handles := []; macros := [];
     fIn := []; fpos := 0;
     binout := None; hexout := None; ref_fOut := None; fs := files0 |}.

(** A [--define]: [Label] reads [self.phase], which does not exist yet,
    when the name is already there. *)
Definition Define (equ : string * Z) : M unit :=
  fun st =>
  match fst (Label_find st (fst equ) true) with
  | Some _ => Abort (PyExc "AttributeError") st
  | None => Label (fst equ) true (Some (snd equ)) st
  end.

Fixpoint for_each {A} (g : A -> M unit) (l : list A) : M unit :=
  match l with
  | [] => ret tt
  | x :: l' => g x ;; for_each g l'
  end.

(** The loop over the sources in pass one: a fresh dictionary of locals
    for each, which [self.labels] points to. *)
Fixpoint pass_one (fuel : nat) (iSource : nat) (srcs : list string) : M unit :=
  match srcs with
  | [] => ret tt
  | sSource :: rest =>
      modify (set_labels ∅) ;;
      AsmPass fuel sSource ;;
      modify (fun st => set_locals (<[iSource := labels st]> (locals st)) st) ;;
      pass_one fuel (S iSource) rest
  end.

Fixpoint pass_two (fuel : nat) (iSource : nat) (srcs : list string) : M unit :=
  match srcs with
  | [] => ret tt
  | sSource :: rest =>
      (fun st => match locals st !! iSource with
                 | Some d => Ok tt (set_labels d st)
                 | None => Abort (PyExc "KeyError") st
                 end) ;;
      AsmPass fuel sSource ;;
      modify (fun st => set_locals (<[iSource := labels st]> (locals st)) st) ;;
      pass_two fuel (S iSource) rest
  end.

(** [open (sFile, 'w')] and [os.remove (sFile)]. *)
Definition os_open (sFile : string) : M unit :=
  modify (fun st => set_fs ({[sFile]} ∪ fs st) st).

Definition os_remove (sFile : string) : M unit :=
  fun st => if bool_decide (sFile ∈ fs st)
            then Ok tt (set_fs (fs st ∖ {[sFile]}) st)
            else Abort (PyExc "FileNotFoundError") st.

(** The sinks are made when pass two starts. *)
Definition open_sinks (args : Args) : M unit :=
  match given (a_binary args) with
  | Some sFile =>
      os_open sFile ;;
      if (0 <=? a_fill args) && (a_fill args <? 256)
      then modify (set_binout (Some (BinOut.init sFile (a_fill args))))
      else raise (PyExc "ValueError")
  | None => ret tt
  end ;;
  match given (a_hex args) with
  | Some sFile =>
      os_open sFile ;; modify (set_hexout (Some (HexOut.init sFile)))
  | None => ret tt
  end ;;
  match given (a_output args) with
  | Some sFile => os_open sFile ;; modify (set_ref_fOut (Some sFile))
  | None => ret tt
  end.

(** The end of [Assemble]: the sinks are closed, with [bKill] set when
    errors were counted, and the process ends. *)
Definition close_sinks (args : Args) : M unit :=
  bKill <- gets (fun st => 0 <? nErr st) ;;
  ho <- gets hexout ;;
  match ho with
  | Some h =>
      a <- gets begin ;;
      modify (set_hexout (Some (HexOut.Close_text h a))) ;;
      when bKill (os_remove (HexOut.sFile h))
  | None => ret tt
  end ;;
  bo <- gets binout ;;
  match bo with
  | Some b =>
      modify (set_binout (Some (BinOut.Write b))) ;;
      when bKill (os_remove (BinOut.sFile b))
  | None => ret tt
  end ;;
  match given (a_output args) with
  | Some _ =>
      fo <- gets ref_fOut ;;
      match fo with
      | Some sFile =>
          modify (set_ref_fOut None) ;;
          when bKill (os_remove sFile)
      | None => raise (PyExc "AttributeError")
      end
  | None => ret tt
  end.

Definition finish (args : Args) : M unit :=
  close_sinks args ;;
  n <- gets nErr ;;
  if 0 <? n then raise (SysExit 1) else ret tt.

Definition Assemble (fuel : nat) (args : Args) : M unit :=
  for_each Define (a_define args) ;;
  modify (set_phase 1) ;;
  modify (set_nErr 0) ;;
  modify (fun st => set_enable (true :: enable st) st) ;;
  pass_one fuel 0 (a_source args) ;;
  n <- gets nErr ;;
  if 0 <? n then raise (SysExit 1)
  else
    modify (set_phase 2) ;;
    modify (set_pc seg_zero) ;;
    modify (set_lc seg_zero) ;;
    modify (set_offset 0) ;;
    open_sinks args ;;
    when (bool_decide (a_dseg args = None))
         (modify (fun st => set_base (seg_set (base st) SegD
                                              (seg_get (lc st) SegC)) st)) ;;
    pass_two fuel 0 (a_source args) ;;
    finish args.

(** The exit status the shell sees. *)
Definition exit_status (r : res unit) : option Z :=
  match r with
  | Ok _ _ => Some 0
  | Abort (SysExit code) _ => Some code
  | Abort (PyExc _) _ => Some 1
  | Abort _ _ => None
  end.

End Assembler.

Import Assembler.

(** ** Sample inputs *)

(** A decimal literal, a label and a negated hexadecimal literal as
    operand fields. *)
Definition num (n : Z) : Field := mkField (Py.fmt_d n) [TNum KD n; TOp Comma].
Definition lab (s : string) : Field := mkField s [TLab s; TOp Comma].

(** A command line that asks for a binary and a hex file. *)
Definition args_of (sty : Style) (src : string) : Args :=
  mkArgs sty Z80 false [] (Some "out.bin") (Some "out.hex") None 255
         None None [] [src] false.

(** The state in which pass two meets the first line of a file that
    pass one found empty of labels. *)
Definition pass2_state (sty : Style) : Asm :=
  set_files [("a.mac", 1)]
    (set_handles [0%nat]
       (set_labels {["$" := Label.mk "$" (Some SegA) (Some 0) "a.mac" 0]}
          (set_enable [true]
             (set_phase 2 (init (args_of sty "a.mac") ∅ ∅))))).

(** * Properties *)

(** ** Basic facts *)

Lemma land_255_mod (v : Z) : Z.land v 255 = v mod 256.
Proof. change 255 with (Z.ones 8). rewrite Z.land_ones by lia. reflexivity. Qed.

Lemma land_65535_mod (v : Z) : Z.land v 65535 = v mod 65536.
Proof. change 65535 with (Z.ones 16). rewrite Z.land_ones by lia. reflexivity. Qed.

Lemma lower_char_idem (c : ascii) : Py.lower_char (Py.lower_char c) = Py.lower_char c.
Proof.
  destruct c as [[] [] [] [] [] [] [] []]; reflexivity.
Qed.

Lemma lower_idem (s : string) : Py.lower (Py.lower s) = Py.lower s.
Proof.
  induction s as [| c s IH]; simpl; [reflexivity |].
  now rewrite lower_char_idem, IH.
Qed.

(** ** The Intel hex checksum *)

(** The check sum as the specification words it. *)
Definition spec_checksum (record_bytes : list Z) : Z :=
  Z.land (256 - Z.land (Py.sum record_bytes) 255) 255.

(** C2: a one-byte record at address 0x00FF holding 0x00 has the bytes
    01 00 FF 00 00, whose sum is 0x100.  The check sum the specification
    asks for is the byte 00; [HexOut.Write] writes the three digits 100,
    because it does not mask the difference [0x100 - (cs & 0xFF)]. *)
Theorem HexOut_Write_checksum_three_digits :
  let h := HexOut.mk "out.hex" "" (Some 255) [0] in
  HexOut.f (HexOut.Write h) = ":0100FF00" ++ "00" ++ "100" ++ Py.nl
  /\ Py.fmt_X 2 (spec_checksum [1; 0; 255; 0; 0]) = "00".
Proof. split; reflexivity. Qed.

(** ** The expression evaluator *)

Ltac run_eval :=
  unfold ExprEval, EvalArith; cbn; unfold bind, gets, ret, raise, modify; cbn.

Lemma length_snoc2 (pre : string) (a b : ascii) :
  String.length (pre ++ String a (String b "")) = S (S (String.length pre)).
Proof. induction pre as [| c pre IH]; simpl; [reflexivity | now rewrite IH]. Qed.

Lemma get_app_right (pre s : string) (k : nat) :
  String.get (String.length pre + k) (pre ++ s) = String.get k s.
Proof. induction pre as [| c pre IH]; simpl; [reflexivity | apply IH]. Qed.

(** Python's negative index [-(len s - k)] into [pre + s] is [s[k]]. *)
Lemma index_from_end (pre s : string) (k : nat) :
  (k < String.length s)%nat ->
  Py.index (pre ++ s) (- Z.of_nat (String.length s - k)) = String.get k s.
Proof.
  intros Hk. unfold Py.index.
  assert (L : String.length (pre ++ s)
              = (String.length pre + String.length s)%nat).
  { induction pre as [| c pre IH]; simpl; [reflexivity | now rewrite IH]. }
  rewrite L.
  destruct (Z.ltb_spec (- Z.of_nat (String.length s - k)) 0) as [_ | Hge];
    [| lia].
  match goal with |- (if ?c then _ else _) = _ => replace c with false end.
  - replace (Z.to_nat _) with (String.length pre + k)%nat by lia.
    apply get_app_right.
  - symmetry. apply orb_false_iff.
    split; [apply Z.ltb_ge | apply Z.leb_gt]; lia.
Qed.

Lemma str_value_two (pre : string) (a b : ascii) :
  str_value (pre ++ String a (String b "")) = 256 * Py.ord a + Py.ord b.
Proof.
  unfold str_value. rewrite length_snoc2.
  assert (H1 : Py.index (pre ++ String a (String b "")) (-1) = Some b)
    by (apply (index_from_end pre (String a (String b "")) 1); simpl; lia).
  assert (H2 : Py.index (pre ++ String a (String b "")) (-2) = Some a)
    by (apply (index_from_end pre (String a (String b "")) 0); simpl; lia).
  rewrite H1, H2. reflexivity.
Qed.

(** An expression made of one term that pushes [v] has the value [v]. *)
Lemma ExprEval_single (st : Asm) (t : Term) (v : Z) :
  (forall rest lV lO op,
      ExprEval_loop (t :: rest) lV lO op = ExprEval_loop rest (v :: lV) lO op) ->
  ExprEval [t; TOp Comma] st = Ok v st.
Proof.
  intros H. unfold ExprEval. rewrite H. cbn. unfold bind, gets. cbn.
  destruct (eval st); reflexivity.
Qed.

(** C9: a quoted string used as a number is worth 0 when empty, the code
    of its character when it has one, and otherwise 256 times the code of
    its last character but one plus the code of its last character,
    whatever stands before these two; this is the value the term puts on
    the value stack inside any expression. *)
Theorem string_term_value :
  (forall st, ExprEval [TStr ""; TOp Comma] st = Ok 0 st)
  /\ (forall st c,
         ExprEval [TStr (String c ""); TOp Comma] st = Ok (Py.ord c) st)
  /\ (forall st pre a b,
         ExprEval [TStr (pre ++ String a (String b "")); TOp Comma] st
         = Ok (256 * Py.ord a + Py.ord b) st)
  /\ (forall s rest lValue lOp op,
         ExprEval_loop (TStr s :: rest) lValue lOp op
         = ExprEval_loop rest (str_value s :: lValue) lOp op).
Proof.
  split; [intros st; apply (ExprEval_single st (TStr "") 0); reflexivity |].
  split; [intros st c;
          apply (ExprEval_single st (TStr (String c "")) (Py.ord c));
          reflexivity |].
  split; [| reflexivity].
  intros st pre a b. rewrite <- (str_value_two pre a b).
  apply (ExprEval_single st (TStr _) (str_value _)). reflexivity.
Qed.

Lemma ExprEval_div (st : Asm) (k1 k2 : NumKind) (a b : Z) :
  b <> 0 ->
  ExprEval [TNum k1 a; TOp Div; TNum k2 b; TOp Comma] st = Ok (a / b) st.
Proof.
  intros Hb. apply Z.eqb_neq in Hb. run_eval.
  destruct (eval st); cbn; rewrite Hb; reflexivity.
Qed.

Lemma ExprEval_mod (st : Asm) (k1 k2 : NumKind) (a b : Z) :
  b <> 0 ->
  ExprEval [TNum k1 a; TOp MOD; TNum k2 b; TOp Comma] st = Ok (a mod b) st.
Proof.
  intros Hb. apply Z.eqb_neq in Hb. run_eval.
  destruct (eval st); cbn; rewrite Hb; reflexivity.
Qed.

Lemma ExprEval_shift_negative (st : Asm) (k1 k2 : NumKind) (a n : Z) (o : OpTag) :
  o = SHL \/ o = SHR -> n < 0 ->
  ExprEval [TNum k1 a; TOp o; TNum k2 n; TOp Comma] st
  = (AsmErr ("Negative shift value: " ++ Py.fmt_d n) ;; ret a) st.
Proof.
  intros Ho Hn. assert (Hn' : (0 <=? n) = false) by (apply Z.leb_gt; lia).
  destruct Ho as [-> | ->]; run_eval.
  all: destruct (eval st); cbn; rewrite Hn'; reflexivity.
Qed.

(** C5, as the specification has it, fails: [-7 / 2] evaluates to [-4],
    where truncation toward zero would give [-3], and [-7 MOD 2] to [1],
    where it would give [-1]. *)
Lemma division_truncates_counterexample :
  ExprEval [TOp UMinus; TNum KD 7; TOp Div; TNum KD 2; TOp Comma]
           (pass2_state M80) = Ok (-4) (pass2_state M80)
  /\ Z.quot (-7) 2 = -3
  /\ ExprEval [TOp UMinus; TNum KD 7; TOp MOD; TNum KD 2; TOp Comma]
              (pass2_state M80) = Ok 1 (pass2_state M80)
  /\ Z.rem (-7) 2 = -1.
Proof.
  split; [vm_compute; reflexivity |].
  split; [reflexivity |].
  split; [vm_compute; reflexivity | reflexivity].
Qed.

(** C5, amended: for integer operands with a divisor that is not zero,
    [/] is the floor of the quotient and [MOD] the remainder that goes
    with it (the sign of the divisor), and a shift by a negative count
    records the error [Negative shift value] and leaves the left operand
    as the value. *)
Theorem division_floors_shift_checks (st : Asm) (k1 k2 : NumKind) (a b : Z) :
  b <> 0 ->
  ExprEval [TNum k1 a; TOp Div; TNum k2 b; TOp Comma] st = Ok (a / b) st
  /\ ExprEval [TNum k1 a; TOp MOD; TNum k2 b; TOp Comma] st = Ok (a mod b) st
  /\ a = b * (a / b) + a mod b
  /\ (0 < b -> 0 <= a mod b < b) /\ (b < 0 -> b < a mod b <= 0)
  /\ (forall n, n < 0 ->
        ExprEval [TNum k1 a; TOp SHL; TNum k2 n; TOp Comma] st
        = (AsmErr ("Negative shift value: " ++ Py.fmt_d n) ;; ret a) st
        /\ ExprEval [TNum k1 a; TOp SHR; TNum k2 n; TOp Comma] st
           = (AsmErr ("Negative shift value: " ++ Py.fmt_d n) ;; ret a) st).
Proof.
  intros Hb. split; [now apply ExprEval_div |].
  split; [now apply ExprEval_mod |].
  split; [apply Z.div_mod; assumption |].
  split; [intros; apply Z.mod_pos_bound; lia |].
  split; [intros; apply Z.mod_neg_bound; lia |].
  intros n Hn; split; apply ExprEval_shift_negative; auto.
Qed.

Lemma division_floors_shift_checks_witness :
  ExprEval [TNum KD (-7); TOp Div; TNum KD 2; TOp Comma] (pass2_state M80)
  = Ok (-4) (pass2_state M80).
Proof.
  exact (proj1 (division_floors_shift_checks (pass2_state M80) KD KD (-7) 2
                  ltac:(lia))).
Defined.

(** ** The range-checking wrappers *)

Lemma EvalArith16_of (e : list Term) (st st1 : Asm) (v : Z) :
  EvalArith e st = Ok v st1 ->
  EvalArith16 e st
  = if (-32768 <=? v) && (v <=? 65535) then Ok (Z.land v 65535) st1
    else (b <- pass2_enabled ;;
          when b (AsmErr "Invalid 16-bit value") ;; ret 0) st1.
Proof. intros H. unfold EvalArith16, bind at 1. rewrite H. now destruct (_ && _). Qed.

Lemma EvalArithS8_of (e : list Term) (msg : string) (st st1 : Asm) (v : Z) :
  EvalArith e st = Ok v st1 ->
  EvalArithS8 e msg st
  = if (-128 <=? v) && (v <=? 127) then Ok (Z.land v 255) st1
    else (b <- pass2_enabled ;; when b (AsmErr msg) ;; ret 0) st1.
Proof. intros H. unfold EvalArithS8, bind at 1. rewrite H. now destruct (_ && _). Qed.

Lemma EvalArith8_of (e : list Term) (msg : string) (st st1 : Asm) (v : Z) :
  EvalArith e st = Ok v st1 ->
  EvalArith8 e msg st
  = if (65280 <=? v) && (v <=? 65535) then Ok (Z.land v 255) st1
    else if (-128 <? v) && (v <=? 255) then Ok (Z.land v 255) st1
    else (b <- pass2_enabled ;; when b (AsmErr msg) ;; ret 0) st1.
Proof.
  intros H. unfold EvalArith8, bind at 1. rewrite H.
  destruct (_ && _); [reflexivity |]. now destruct (_ && _).
Qed.

(** What the three wrappers accept: the 16-bit one [-0x8000..0xFFFF], the
    signed one [-0x80..0x7F], the one for constants [-0x7F..0xFF] and
    [0xFF00..0xFFFF]; what they do not accept is an error in pass two
    inside an enabled block, and 0 is returned. *)
Lemma wrappers_ranges (e : list Term) (msg : string) (st st1 : Asm) (v : Z) :
  EvalArith e st = Ok v st1 ->
  (-32768 <= v <= 65535 -> EvalArith16 e st = Ok (v mod 65536) st1)
  /\ (-128 <= v <= 127 -> EvalArithS8 e msg st = Ok (v mod 256) st1)
  /\ (-127 <= v <= 255 \/ 65280 <= v <= 65535 ->
      EvalArith8 e msg st = Ok (v mod 256) st1)
  /\ (phase st1 = 2 -> (exists rest, enable st1 = true :: rest) ->
      (~ -32768 <= v <= 65535 ->
       EvalArith16 e st = (AsmErr "Invalid 16-bit value" ;; ret 0) st1)
      /\ (~ -128 <= v <= 127 ->
          EvalArithS8 e msg st = (AsmErr msg ;; ret 0) st1)
      /\ (~ (-127 <= v <= 255 \/ 65280 <= v <= 65535) ->
          EvalArith8 e msg st = (AsmErr msg ;; ret 0) st1)).
Proof.
  intros H.
  rewrite (EvalArith16_of _ _ _ _ H), (EvalArithS8_of _ msg _ _ _ H),
    (EvalArith8_of _ msg _ _ _ H), <- land_65535_mod, <- land_255_mod.
  assert (P2 : phase st1 = 2 -> (exists rest, enable st1 = true :: rest) ->
               forall m, (b <- pass2_enabled ;; when b (AsmErr m) ;; ret 0) st1
                         = (AsmErr m ;; ret 0) st1).
  { intros Hp [rest He] m. unfold pass2_enabled, enable_top, bind, gets.
    rewrite Hp. cbn. rewrite He. reflexivity. }
  split; [| split; [| split]].
  - intros Hv. destruct (Z.leb_spec (-32768) v), (Z.leb_spec v 65535);
      simpl; try lia; reflexivity.
  - intros Hv. destruct (Z.leb_spec (-128) v), (Z.leb_spec v 127);
      simpl; try lia; reflexivity.
  - intros Hv. destruct (Z.leb_spec 65280 v), (Z.leb_spec v 65535),
      (Z.ltb_spec (-128) v), (Z.leb_spec v 255); simpl; try lia; reflexivity.
  - intros Hp He. split; [| split].
    + intros Hv. rewrite <- P2 by assumption.
      destruct (Z.leb_spec (-32768) v), (Z.leb_spec v 65535);
        simpl; try lia; reflexivity.
    + intros Hv. rewrite <- P2 by assumption.
      destruct (Z.leb_spec (-128) v), (Z.leb_spec v 127);
        simpl; try lia; reflexivity.
    + intros Hv. rewrite <- P2 by assumption.
      destruct (Z.leb_spec 65280 v), (Z.leb_spec v 65535),
        (Z.ltb_spec (-128) v), (Z.leb_spec v 255); simpl; try lia; reflexivity.
Qed.

(** C6: in pass two, inside an enabled block, the wrapper for 8-bit
    constants turns [-80H] into the error it was given and returns 0: its
    test reads [value > -0x80].  The signed wrapper, whose test reads
    [value >= -0x80], takes the same operand and returns the byte 0x80. *)
Theorem EvalArith8_rejects_minus_128 :
  EvalArith8 [TOp UMinus; TNum KH 128; TOp Comma] "Invalid 8-bit constant"
             (pass2_state M80)
  = Ok 0 (set_sErr (Some "Invalid 8-bit constant") (pass2_state M80))
  /\ EvalArithS8 [TOp UMinus; TNum KH 128; TOp Comma] "Index out of range"
                 (pass2_state M80)
     = Ok 128 (pass2_state M80).
Proof. split; vm_compute; reflexivity. Qed.

(** ** Mnemonics without operand *)

(** Every entry of [op0] but that of RETN is one or two bytes long. *)
Lemma op0_lengths :
  Forall (fun '(k, v) => k = "RETN" \/ length v = 1%nat \/ length v = 2%nat) op0.
Proof.
  unfold op0.
  repeat (constructor;
          [first [left; reflexivity | right; left; reflexivity
                 | right; right; reflexivity] |]).
  constructor.
Qed.

Lemma Parse_Z80_op0 (sOpCode : string) (byCode : list Z) (st : Asm) :
  dict_get op0 sOpCode = Some byCode ->
  Parse_Z80 sOpCode [] st = Ok tt (set_mc (mc st ++ byCode) st).
Proof. intros H. unfold Parse_Z80. rewrite H. reflexivity. Qed.

(** C8: the mnemonic RETN, met on a line of its own, puts the three bytes
    ED 34 35 into the code of the line, not the two bytes ED 45 of the
    Z80 instruction: the table holds the escape [\xED] followed by the
    characters 4 and 5. *)
Theorem RETN_emits_three_bytes (st : Asm) :
  Parse_Z80 "RETN" [] st = Ok tt (set_mc (mc st ++ [237; 52; 53]) st)
  /\ Py.ord "4" = 52 /\ Py.ord "5" = 53.
Proof. split; [now apply Parse_Z80_op0 | split; reflexivity]. Qed.

(** ** Frame rules

    A relation between the state a method starts in and the state it
    leaves is kept by the method when it is kept by each assignment the
    method makes.  The rules below are stated once, for any reflexive
    and transitive relation [R]; each lemma asks only for the
    assignments its method makes. *)

Section Frame.

Variable R : Asm -> Asm -> Prop.
Hypothesis R_refl : forall st, R st st.
Hypothesis R_trans : forall a b c, R a b -> R b c -> R a c.

Definition keeps {A} (m : M A) : Prop :=
  forall st, match m st with
             | Ok _ st' => R st st'
             | Abort _ st' => R st st'
             end.

Lemma keeps_ret {A} (a : A) : keeps (ret a).
Proof. intros st. apply R_refl. Qed.

Lemma keeps_raise {A} (e : abort) : keeps (@raise A e).
Proof. intros st. apply R_refl. Qed.

Lemma keeps_gets {A} (p : Asm -> A) : keeps (gets p).
Proof. intros st. apply R_refl. Qed.

Lemma keeps_bind {A B} (m : M A) (k : A -> M B) :
  keeps m -> (forall a, keeps (k a)) -> keeps (bind m k).
Proof.
  intros Hm Hk st. unfold bind. specialize (Hm st).
  destruct (m st) as [a st1 | e st1]; [| exact Hm].
  specialize (Hk a st1). destruct (k a st1); eapply R_trans; eauto.
Qed.

Lemma keeps_modify (g : Asm -> Asm) :
  (forall st, R st (g st)) -> keeps (modify g).
Proof. intros H st. apply H. Qed.

Lemma keeps_when (b : bool) (m : M unit) : keeps m -> keeps (when b m).
Proof. intros H. destruct b; [exact H | apply keeps_ret]. Qed.

Lemma keeps_enable_top : keeps enable_top.
Proof. intros st. unfold enable_top. destruct (enable st); apply R_refl. Qed.

Lemma keeps_pass2_enabled : keeps pass2_enabled.
Proof.
  apply keeps_bind; [apply keeps_gets |].
  intros ph. destruct (ph =? 2); [apply keeps_enable_top | apply keeps_ret].
Qed.

Lemma keeps_whole_expr (sArgs : list Field) : keeps (whole_expr sArgs).
Proof.
  destruct sArgs as [| f [| g r]]; first [apply keeps_ret | apply keeps_raise].
Qed.

Lemma keeps_upper (s : string) : keeps (upper s).
Proof. unfold upper. destruct (Py.upper s); [apply keeps_ret | apply keeps_raise]. Qed.

Lemma keeps_label_value (arg : string) : keeps (label_value arg).
Proof.
  intros st. unfold label_value.
  destruct (labels st !! arg) as [l |]; [| destruct (publics st !! arg) as [l |]].
  all: try apply R_refl.
  all: destruct (Label.value l); [destruct (Label.seg l) |]; apply R_refl.
Qed.

(** *** Methods that only report errors *)

Hypothesis R_err :
  forall msg st, sErr st = None -> R st (set_sErr (Some msg) st).

Lemma keeps_AsmErr (msg : string) : keeps (AsmErr msg).
Proof.
  intros st. unfold AsmErr, modify.
  destruct (sErr st) eqn:E; [apply R_refl | now apply R_err].
Qed.

Ltac keeps_step :=
  lazymatch goal with
  | |- keeps (bind _ _) => apply keeps_bind; [| intros ?]
  | |- keeps (ret _) => apply keeps_ret
  | |- keeps (raise _) => apply keeps_raise
  | |- keeps (gets _) => apply keeps_gets
  | |- keeps get_PC => apply keeps_gets
  | |- keeps get_LC => apply keeps_gets
  | |- keeps (when _ _) => apply keeps_when
  | |- keeps (AsmErr _) => apply keeps_AsmErr
  | |- keeps enable_top => apply keeps_enable_top
  | |- keeps pass2_enabled => apply keeps_pass2_enabled
  | |- keeps (whole_expr _) => apply keeps_whole_expr
  | |- keeps (upper _) => apply keeps_upper
  | |- keeps (label_value _) => apply keeps_label_value
  | |- keeps (if ?c then _ else _) => destruct c
  | |- keeps (match ?x with _ => _ end) => destruct x
  | |- keeps (let _ := _ in _) => cbv zeta
  end.

Ltac keeps_auto := repeat keeps_step.

Lemma keeps_ApplyOp (op : OpTag) (lValue : list Z) : keeps (ApplyOp op lValue).
Proof. destruct op; cbn; keeps_auto. Qed.

Lemma keeps_Unwind (rl : Z) (lOp : list (Z * OpTag)) :
  forall lValue op, keeps (Unwind rl lOp lValue op).
Proof.
  induction lOp as [| [lvl o] lOp IH]; intros lValue op; cbn.
  - apply keeps_ret.
  - destruct (lvl <? rl); [apply keeps_ret |].
    apply keeps_bind; [apply keeps_ApplyOp |].
    intros r. destruct r; keeps_auto. apply IH.
Qed.

Lemma keeps_ExprEval_end (lOp : list (Z * OpTag)) (lValue : list Z) :
  keeps (ExprEval_end lOp lValue).
Proof. unfold ExprEval_end. keeps_auto. Qed.

Lemma keeps_ExprEval_loop (lExpr : list Term) :
  forall lValue lOp op, keeps (ExprEval_loop lExpr lValue lOp op).
Proof.
  induction lExpr as [| t rest IH]; intros lValue lOp op; cbn.
  - apply keeps_ExprEval_end.
  - destruct t as [k v | s | s | o]; try apply IH.
    + keeps_auto; apply IH.
    + assert (G : forall m, keeps (u <- Unwind (evLvl m o) lOp lValue op ;;
                match u with
                | Return0 => ret 0
                | Go lOp lValue op =>
                    match o with
                    | RParen =>
                        match op with
                        | None => raise (PyExc "UnboundLocalError")
                        | Some LParen => ExprEval_loop rest lValue lOp op
                        | Some _ => AsmErr "Mismatched brackets" ;; ret 0
                        end
                    | Comma => ExprEval_end lOp lValue
                    | _ => ExprEval_loop rest lValue ((evLvl m o, o) :: lOp) op
                    end
                end)).
      { intros m. apply keeps_bind; [apply keeps_Unwind |].
        intros u. destruct u as [lOp' lValue' op' |]; [| apply keeps_ret].
        destruct o; try apply IH; try apply keeps_ExprEval_end.
        destruct op' as [[] |]; keeps_auto; apply IH. }
      destruct o; try (apply keeps_bind; [apply keeps_gets | intros m; apply G]).
      apply keeps_bind; [apply keeps_gets | intros m; apply IH].
Qed.

Lemma keeps_ExprEval (lExpr : list Term) : keeps (ExprEval lExpr).
Proof. apply keeps_ExprEval_loop. Qed.

Lemma keeps_EvalArith (lExpr : list Term) : keeps (EvalArith lExpr).
Proof. apply keeps_ExprEval_loop. Qed.

Lemma keeps_EvalArith16 (lExpr : list Term) : keeps (EvalArith16 lExpr).
Proof. unfold EvalArith16. keeps_step; [apply keeps_EvalArith |]. keeps_auto. Qed.

Lemma keeps_EvalString (sArgs : list Field) : keeps (EvalString sArgs).
Proof.
  unfold EvalString.
  assert (G : keeps (value <- ExprEval (fst (next_expr sArgs)) ;;
                     b <- pass2_enabled ;;
                     if b && (255 <? value) && (value <? 65408)
                     then AsmErr ("Invalid byte value: " ++ args_text sArgs
                                  ++ " = 0x" ++ Py.fmt_X 2 value) ;; ret [0]
                     else ret [Z.land value 255])).
  { keeps_step; [apply keeps_ExprEval |]. keeps_auto. }
  destruct (fst (next_expr sArgs)) as [| [k v | s | s | o] [| t2 [| t3 r]]];
    try exact G.
  keeps_auto.
Qed.

(** *** Methods that emit code *)

Hypothesis R_mc : forall x st, R st (set_mc x st).

Lemma keeps_Code_bytes (bs : list Z) : keeps (Code_bytes bs).
Proof. apply keeps_modify. intros st. apply R_mc. Qed.

Lemma keeps_Code (byCode : Z) : keeps (Code byCode).
Proof.
  unfold Code. destruct (_ && _); [| apply keeps_raise].
  apply keeps_modify. intros st. apply R_mc.
Qed.

Lemma keeps_Address (ad : Z) : keeps (Address ad).
Proof.
  unfold Address. cbv zeta. keeps_auto;
    first [apply keeps_Code | apply keeps_Code_bytes].
Qed.

Lemma keeps_Define_bytes (sArgs : list Field) : keeps (Define_bytes sArgs).
Proof.
  induction sArgs as [| f rest IH]; cbn; [apply keeps_ret |].
  keeps_step; [apply keeps_EvalString |].
  keeps_step; [apply keeps_Code_bytes | apply IH].
Qed.

Lemma keeps_Define_words (sArgs : list Field) : keeps (Define_words sArgs).
Proof.
  induction sArgs as [| f rest IH]; cbn; [apply keeps_ret |].
  keeps_step; [apply keeps_EvalArith16 |].
  keeps_step; [apply keeps_Address | apply IH].
Qed.

Lemma keeps_Parse_DJNZ (sArgs : list Field) : keeps (Parse_DJNZ sArgs).
Proof.
  unfold Parse_DJNZ.
  keeps_step; [apply keeps_whole_expr |].
  keeps_step; [apply keeps_EvalArith16 |].
  repeat first [apply keeps_Code | keeps_step].
Qed.

Lemma keeps_Parse_jump (sOpCode : string) (byCode : Z * Z) (sArgs : list Field) :
  keeps (Parse_jump sOpCode byCode sArgs).
Proof.
  unfold Parse_jump. keeps_step.
  - destruct sArgs as [| f [| g r]];
      repeat first [apply keeps_Code | apply keeps_Code_bytes | keeps_step].
  - destruct a as [[[[bc bcond] s1] args] |]; [| apply keeps_ret].
    keeps_step; [apply keeps_whole_expr |].
    keeps_step; [apply keeps_EvalArith16 |].
    repeat first [apply keeps_Code | apply keeps_Address | keeps_step].
Qed.

Lemma keeps_Parse_Z80 (sOpCode : string) (sArgs : list Field) :
  keeps (Parse_Z80 sOpCode sArgs).
Proof.
  unfold Parse_Z80. destruct (dict_get op0 sOpCode) as [bc |].
  - destruct sArgs; [apply keeps_Code_bytes | apply keeps_AsmErr].
  - cbv zeta. destruct (dict_get opC _) as [bc |]; [apply keeps_Parse_jump |].
    destruct (String.eqb _ "DJNZ"); [apply keeps_Parse_DJNZ | apply keeps_raise].
Qed.

(** *** The data directives *)

Hypothesis R_nSpace : forall x st, R st (set_nSpace x st).

Lemma keeps_reserve (value : Z) : keeps (reserve value).
Proof.
  unfold reserve. keeps_auto. apply keeps_modify. intros st. apply R_nSpace.
Qed.

Lemma keeps_Parse_data (sOpCode : string) (sArgs : list Field) (m : M unit) :
  Parse_data sOpCode sArgs = Some m -> keeps m.
Proof.
  unfold Parse_data. intros H.
  repeat match type of H with
         | (if ?c then _ else _) = _ => destruct c
         end; inversion H; subst; clear H.
  - apply keeps_Define_bytes.
  - apply keeps_Define_words.
  - keeps_step; [apply keeps_gets |].
    destruct a; first [apply keeps_Define_bytes
                      | keeps_step; [apply keeps_EvalArith16 | apply keeps_reserve]].
  - keeps_step; [apply keeps_EvalArith16 | apply keeps_reserve].
  - keeps_step; [apply keeps_EvalArith16 |].
    repeat first [apply keeps_modify; intros st; apply R_nSpace | keeps_step].
  - keeps_step; [apply keeps_EvalArith16 | apply keeps_Code_bytes].
Qed.

(** *** The origin directives *)

Hypothesis R_lc : forall x st, R st (set_lc x st).
Hypothesis R_pc : forall x st, R st (set_pc x st).
Hypothesis R_pseg : forall x st, R st (set_pseg x st).
Hypothesis R_offset : forall x st, R st (set_offset x st).
Hypothesis R_bUpdate : forall x st, R st (set_bUpdate x st).
Hypothesis R_binout : forall x st, R st (set_binout x st).
Hypothesis R_hexout : forall x st, R st (set_hexout x st).

Lemma keeps_SetLoad (addr : Z) (bInit : bool) : keeps (SetLoad addr bInit).
Proof.
  unfold SetLoad.
  keeps_step; [apply keeps_gets |].
  keeps_step; [apply keeps_gets |].
  keeps_step; [keeps_auto |].
  keeps_step; [apply keeps_modify; intros st; apply R_lc |].
  keeps_step; [apply keeps_gets |].
  destruct (_ =? 2); [| apply keeps_ret].
  keeps_step.
  - intros st. destruct (binout st) as [b |]; [| apply R_refl].
    destruct (BinOut.SetAddr _ _ _); [apply R_binout | apply R_refl].
  - apply keeps_modify. intros st.
    destruct (hexout st); [apply R_hexout | apply R_refl].
Qed.

Lemma keeps_set_PC (v : Z) : keeps (set_PC v).
Proof. apply keeps_modify. intros st. apply R_pc. Qed.

Lemma keeps_set_update (name : string) : keeps (set_update name).
Proof. apply keeps_modify. intros st. apply R_bUpdate. Qed.

Lemma keeps_Parse_origin (sty : Style) (sOpCode : string)
                         (sArgs : list Field) (m : M unit) :
  Parse_origin sty sOpCode sArgs = Some m -> keeps m.
Proof.
  unfold Parse_origin. intros H.
  destruct sty;
    repeat match type of H with
           | (if ?c then _ else _) = _ => destruct c
           end; inversion H; subst; clear H.
  all: repeat first [ apply keeps_set_update | apply keeps_EvalArith
                    | apply keeps_EvalArith16 | apply keeps_SetLoad
                    | apply keeps_set_PC
                    | apply keeps_modify; intros st;
                      first [apply R_pseg | apply R_offset]
                    | keeps_step ].
Qed.

(** *** Conditions and repeats *)

Hypothesis R_enable : forall x st, R st (set_enable x st).

Lemma keeps_Parse_IF (sArgs : list Field) (want_zero : bool) :
  keeps (Parse_IF sArgs want_zero).
Proof.
  unfold Parse_IF.
  repeat first [ apply keeps_EvalArith16
               | apply keeps_modify; intros st; apply R_enable | keeps_step ].
Qed.

Lemma keeps_Parse_ELSE : keeps Parse_ELSE.
Proof.
  unfold Parse_ELSE. keeps_step; [apply keeps_gets |].
  destruct a as [| e1 [| e2 r]]; try apply keeps_AsmErr.
  apply keeps_modify. intros st. apply R_enable.
Qed.

Lemma keeps_Parse_ENDIF : keeps Parse_ENDIF.
Proof.
  unfold Parse_ENDIF. keeps_step; [apply keeps_gets |].
  destruct a as [| e1 [| e2 r]]; try apply keeps_AsmErr.
  apply keeps_modify. intros st. apply R_enable.
Qed.

Section Repeats.

Hypothesis R_macros : forall x st, R st (set_macros x st).
Hypothesis R_fpos : forall x st, R st (set_fpos x st).

Lemma keeps_Parse_REPT (sArgs : list Field) : keeps (Parse_REPT sArgs).
Proof.
  unfold Parse_REPT.
  keeps_step; [apply keeps_enable_top |].
  keeps_step. keeps_step; [apply keeps_EvalArith |].
  keeps_step. intros st. destruct (handles st); [apply R_refl | apply R_macros].
Qed.

Lemma keeps_Parse_ENDM : keeps Parse_ENDM.
Proof.
  unfold Parse_ENDM. keeps_step; [apply keeps_gets |].
  destruct a as [| macro ms]; [apply keeps_AsmErr |].
  keeps_step; [apply keeps_modify; intros st; apply R_macros |].
  keeps_step. cbv zeta. keeps_step.
  intros st. destruct (handles st) as [| h hs]; [apply R_refl |].
  destruct (negb _); [apply keeps_AsmErr |].
  eapply R_trans; [apply R_fpos | apply R_macros].
Qed.

End Repeats.

(** *** Labels *)

Section Labels.

Hypothesis R_labels : forall x st, R st (set_labels x st).
Hypothesis R_publics : forall x st, R st (set_publics x st).

Lemma R_store_label (w : Where) (key : string) (l : Label.t) (st : Asm) :
  R st (store_label w key l st).
Proof. destruct w; [apply R_publics | apply R_labels]. Qed.

Lemma keeps_Label (sLabel : string) (bPublic : bool) (value : option Z) :
  keeps (Label sLabel bPublic value).
Proof.
  intros st. unfold Label.
  destruct value as [v |]; cbv zeta iota beta;
    destruct (Label_find st sLabel bPublic) as [[[w l] |] bp];
    try apply R_store_label.
  all: destruct (phase st =? 1); destruct (Label.value l) as [old |];
    try apply R_store_label; try apply keeps_AsmErr.
  all: match goal with |- context [if ?c then _ else _] => destruct c end;
    first [apply keeps_AsmErr | apply R_refl].
Qed.

Lemma keeps_AutoLabel : keeps AutoLabel.
Proof.
  intros st. unfold AutoLabel.
  destruct (labels st !! "$"); [| apply R_refl].
  destruct (files st) as [| [nm n] r]; [apply R_refl | apply R_labels].
Qed.

Lemma keeps_Parse_EQU (sLabel : option string) (bPublic : bool)
                      (sArgs : list Field) :
  keeps (Parse_EQU sLabel bPublic sArgs).
Proof.
  unfold Parse_EQU. destruct sLabel; [| apply keeps_AsmErr].
  repeat first [apply keeps_EvalArith | apply keeps_Label | keeps_step].
Qed.

Lemma keeps_Parse_label (sLabel : option string) (bPublic : bool) :
  keeps (Parse_label sLabel bPublic).
Proof.
  unfold Parse_label. destruct sLabel; [| apply keeps_ret].
  repeat first [apply keeps_Label | keeps_step].
Qed.

End Labels.

(** *** The chain of tests on the mnemonic *)

Hypothesis R_begin : forall x st, R st (set_begin x st).

Lemma keeps_Parse_END (sArgs : list Field) : keeps (Parse_END sArgs).
Proof.
  unfold Parse_END.
  repeat first [ apply keeps_EvalArith16
               | apply keeps_modify; intros st; apply R_begin | keeps_step ].
Qed.

(** [Parse_op] keeps [R] when the branch taken does; the tests that
    come first in the chain only touch [enable] and [begin]. *)
Lemma keeps_Parse_op_gen (sOpCode : string) (sArgs : list Field) :
  (String.eqb sOpCode "REPT" = true -> keeps (Parse_REPT sArgs)) ->
  (String.eqb sOpCode "ENDM" = true -> keeps Parse_ENDM) ->
  (forall sty m, Parse_origin sty sOpCode sArgs = Some m -> keeps m) ->
  (forall m, Parse_data sOpCode sArgs = Some m -> keeps m) ->
  keeps (Parse_Z80 sOpCode sArgs) ->
  keeps (Parse_op sOpCode sArgs).
Proof.
  intros HR HE HO HD HZ. unfold Parse_op.
  destruct (String.eqb sOpCode "END"); [apply keeps_Parse_END |].
  destruct (_ || _); [keeps_step; [apply keeps_Parse_IF | apply keeps_ret] |].
  destruct (_ || _); [keeps_step; [apply keeps_Parse_IF | apply keeps_ret] |].
  destruct (String.eqb sOpCode "ELSE");
    [keeps_step; [apply keeps_Parse_ELSE | apply keeps_ret] |].
  destruct (String.eqb sOpCode "ENDIF");
    [keeps_step; [apply keeps_Parse_ENDIF | apply keeps_ret] |].
  destruct (String.eqb sOpCode "REPT");
    [keeps_step; [now apply HR | apply keeps_ret] |].
  destruct (String.eqb sOpCode "ENDM");
    [keeps_step; [now apply HE | apply keeps_ret] |].
  keeps_step; [apply keeps_gets |].
  destruct (Parse_origin a sOpCode sArgs) as [m |] eqn:Eo.
  { keeps_step; [eapply HO; eauto | apply keeps_ret]. }
  destruct (Parse_data sOpCode sArgs) as [m |] eqn:Ed.
  { keeps_step; [eapply HD; eauto | apply keeps_ret]. }
  keeps_step; [apply keeps_gets |].
  destruct a0; try apply keeps_raise.
  all: keeps_step; [apply HZ | apply keeps_ret].
Qed.


(** *** The driver *)

Section Driver.

Hypothesis R_macros : forall x st, R st (set_macros x st).
Hypothesis R_fpos : forall x st, R st (set_fpos x st).
Hypothesis R_labels : forall x st, R st (set_labels x st).
Hypothesis R_publics : forall x st, R st (set_publics x st).
Hypothesis R_sErr : forall x st, R st (set_sErr x st).
Hypothesis R_files : forall x st, R st (set_files x st).
Hypothesis R_handles : forall x st, R st (set_handles x st).
Hypothesis R_fIn : forall x st, R st (set_fIn x st).
Hypothesis R_locals : forall x st, R st (set_locals x st).
Hypothesis R_count : forall st, R st (set_nErr (nErr st + 1) st).

Lemma keeps_Parse_stmt (sLabel : option string) (bPublic : bool)
                       (sOpCode : string) (sArgs : list Field) :
  keeps (Parse_stmt sLabel bPublic sOpCode sArgs).
Proof.
  unfold Parse_stmt. destruct (String.eqb sOpCode "EQU").
  - keeps_step; [now apply keeps_Parse_EQU | apply keeps_ret].
  - keeps_step; [now apply keeps_Parse_label |].
    destruct (String.eqb sOpCode ""); [apply keeps_ret |].
    apply keeps_Parse_op_gen.
    + intros _. now apply keeps_Parse_REPT.
    + intros _. now apply keeps_Parse_ENDM.
    + intros sty m. apply keeps_Parse_origin.
    + intros m. apply keeps_Parse_data.
    + apply keeps_Parse_Z80.
Qed.

Lemma keeps_Parse_begin : keeps Parse_begin.
Proof.
  apply keeps_modify. intros st.
  eapply R_trans; [apply R_sErr |]. eapply R_trans; [apply R_mc | apply R_nSpace].
Qed.

Lemma keeps_Parse (sLine : SrcLine) : keeps (Parse sLine).
Proof.
  unfold Parse. keeps_step; [apply keeps_Parse_begin |].
  destruct sLine; [apply keeps_ret |].
  keeps_step; [now apply keeps_AutoLabel | apply keeps_Parse_stmt].
Qed.

Lemma keeps_count_error : keeps count_error.
Proof.
  apply keeps_modify. intros st. destruct (sErr st); [apply R_count | apply R_refl].
Qed.

Lemma keeps_emit : keeps emit.
Proof.
  unfold emit. keeps_step; [apply keeps_enable_top |].
  keeps_step. keeps_step; [apply keeps_gets |]. cbv zeta.
  keeps_step.
  - keeps_step. keeps_step; [apply keeps_gets |].
    keeps_step; [apply keeps_SetLoad |].
    keeps_step; apply keeps_modify; intros st;
      [destruct (binout st); [apply R_binout | apply R_refl]
      | destruct (hexout st); [apply R_hexout | apply R_refl]].
  - keeps_step; [apply keeps_gets |].
    keeps_step; apply keeps_modify; intros st; [apply R_pc | apply R_lc].
Qed.

Lemma keeps_AsmLine (sLine : SrcLine) : keeps (AsmLine sLine).
Proof.
  unfold AsmLine. keeps_step; [apply keeps_Parse |].
  keeps_step; [apply keeps_count_error |].
  keeps_step; [apply keeps_emit | apply keeps_ret].
Qed.

Lemma keeps_readline : keeps readline.
Proof.
  intros st. unfold readline. destruct (fIn st !! fpos st);
    [apply R_fpos | apply R_refl].
Qed.

Lemma keeps_count_line : keeps count_line.
Proof.
  intros st. unfold count_line. destruct (files st) as [| [nm n] r];
    [apply R_refl | apply R_files].
Qed.

Lemma keeps_AsmPass_loop (fuel : nat) : keeps (AsmPass_loop fuel).
Proof.
  induction fuel as [| fuel IH]; cbn; [apply keeps_raise |].
  keeps_step; [apply keeps_readline |].
  destruct a as [sLine |]; [| apply keeps_ret].
  keeps_step; [apply keeps_count_line |].
  keeps_step; [apply keeps_AsmLine |].
  destruct a0 as [[] |]; first [apply keeps_raise | apply keeps_ret | apply IH].
Qed.

Lemma keeps_AsmPass_open (sInput : string) : keeps (AsmPass_open sInput).
Proof.
  unfold AsmPass_open.
  keeps_step; [apply keeps_modify; intros st; apply R_files |].
  keeps_step; [apply keeps_modify; intros st;
               destruct (labels st !! "$"); [apply R_refl | apply R_labels] |].
  keeps_step; [apply keeps_gets |].
  keeps_step; [| apply keeps_ret].
  intros st. destruct (disk st !! sInput); [| apply R_refl].
  eapply R_trans; [apply R_handles |].
  eapply R_trans; [apply R_fIn | apply R_fpos].
Qed.

Lemma keeps_AsmPass_close (nEnable : nat) : keeps (AsmPass_close nEnable).
Proof.
  unfold AsmPass_close.
  keeps_step; [apply keeps_gets |]. keeps_step; [apply keeps_gets |].
  keeps_step; [| apply keeps_modify; intros st; apply R_files].
  keeps_step. destruct a0; try (apply keeps_modify; intros st; apply R_count).
  destruct (_ <? _)%nat; apply keeps_modify; intros st;
    [apply R_enable | apply R_count].
Qed.

Lemma keeps_AsmPass (fuel : nat) (sInput : string) : keeps (AsmPass fuel sInput).
Proof.
  unfold AsmPass. keeps_step; [apply keeps_AsmPass_open |].
  keeps_step; [apply keeps_AsmPass_loop | apply keeps_AsmPass_close].
Qed.

Lemma keeps_pass_two (fuel : nat) (srcs : list string) :
  forall iSource, keeps (pass_two fuel iSource srcs).
Proof.
  induction srcs as [| s rest IH]; intros i; cbn; [apply keeps_ret |].
  keeps_step.
  { intros st. destruct (locals st !! i); [apply R_labels | apply R_refl]. }
  keeps_step; [apply keeps_AsmPass |].
  keeps_step; [apply keeps_modify; intros st; apply R_locals | apply IH].
Qed.

End Driver.

End Frame.

(** ** What a line leaves alone *)

Lemma keeps_Ok {A} (R : Asm -> Asm -> Prop) (m : M A) (st st' : Asm) (a : A) :
  keeps R m -> m st = Ok a st' -> R st st'.
Proof. intros H E. specialize (H st). now rewrite E in H. Qed.

(** The counters and the segments they are read in. *)
Definition same_counters (st st' : Asm) : Prop :=
  pc st' = pc st /\ lc st' = lc st /\ pseg st' = pseg st /\ lseg st' = lseg st.

(** The code of the line and the space it reserves. *)
Definition same_code (st st' : Asm) : Prop :=
  mc st' = mc st /\ nSpace st' = nSpace st.

Definition same_counters_code (st st' : Asm) : Prop :=
  same_counters st st' /\ same_code st st'.

(** The count of errors, and the error of the line once there is one. *)
Definition same_nErr (st st' : Asm) : Prop := nErr st' = nErr st.

Definition nErr_le (st st' : Asm) : Prop := nErr st <= nErr st'.

Definition first_err (st st' : Asm) : Prop :=
  sErr st = None \/ sErr st' = sErr st.

(** The source file, where it is read, and the repeats in progress. *)
Definition same_file (st st' : Asm) : Prop :=
  macros st' = macros st /\ handles st' = handles st
  /\ fIn st' = fIn st /\ fpos st' = fpos st.

Create HintDb frame.
#[local] Hint Unfold same_counters same_code same_counters_code same_nErr
  nErr_le first_err same_file : frame.

Ltac frame_leaf :=
  intros; autounfold with frame in *; cbn in *;
  intuition (try congruence; try lia).

(** [frame lem]: the instance of the frame rule [lem] at the relation of
    the goal. *)
Ltac frame lem := apply lem; try solve [frame_leaf].

Lemma seg_get_set (m : SegMap) (s s' : Seg) (v : Z) :
  seg_get (seg_set m s v) s' = if decide (s = s') then v else seg_get m s'.
Proof. destruct s, s'; reflexivity. Qed.

Lemma seg_get_set_eq (m : SegMap) (s : Seg) (v : Z) :
  seg_get (seg_set m s v) s = v.
Proof. destruct s; reflexivity. Qed.

(** The names of the origin directives, all styles together. *)
Definition origin_names : list string :=
  ["ORG"; "BORG"; "OFFSET"; ".PHASE"; ".DEPHASE"; "LOAD"].

Lemma Parse_origin_names (sty : Style) (sOpCode : string) (sArgs : list Field) :
  sOpCode ∉ origin_names -> Parse_origin sty sOpCode sArgs = None.
Proof.
  intros H. unfold Parse_origin.
  destruct sty;
    repeat match goal with
           | |- context [String.eqb sOpCode ?n] =>
               destruct (String.eqb_spec sOpCode n) as [-> | _];
               [exfalso; apply H; unfold origin_names; set_solver |]
           end; reflexivity.
Qed.

(** An origin directive emits no code and reserves no space. *)
Lemma Parse_op_origin (sOpCode : string) (sArgs : list Field) :
  sOpCode ∈ origin_names -> keeps same_code (Parse_op sOpCode sArgs).
Proof.
  intros H. apply keeps_Parse_op_gen; try solve [frame_leaf].
  - intros E. exfalso. apply String.eqb_eq in E. subst.
    unfold origin_names in H. set_solver.
  - intros E. exfalso. apply String.eqb_eq in E. subst.
    unfold origin_names in H. set_solver.
  - intros sty m. frame keeps_Parse_origin.
  - intros m Hm. exfalso. unfold origin_names in H.
    repeat (apply elem_of_cons in H; destruct H as [-> | H]);
      [discriminate Hm .. | now apply elem_of_nil in H].
  - unfold origin_names in H.
    repeat (apply elem_of_cons in H; destruct H as [-> | H]);
      [intros st; cbn; frame_leaf .. | now apply elem_of_nil in H].
Qed.

(** Any other line leaves the counters and the segments alone. *)
Lemma Parse_op_other (sOpCode : string) (sArgs : list Field) :
  sOpCode ∉ origin_names -> keeps same_counters (Parse_op sOpCode sArgs).
Proof.
  intros H. apply keeps_Parse_op_gen; try solve [frame_leaf].
  - intros _. frame keeps_Parse_REPT.
  - intros _. frame keeps_Parse_ENDM.
  - intros sty m Hm. rewrite Parse_origin_names in Hm by assumption.
    discriminate.
  - intros m. frame keeps_Parse_data.
  - frame keeps_Parse_Z80.
Qed.

(** After [Parse], either the counters are where they were or the line
    has neither code nor reserved space. *)
Lemma Parse_counters_or_nothing (sLine : SrcLine) (st st1 : Asm)
                                (a : option Action) :
  Parse sLine st = Ok a st1 ->
  same_counters st st1 \/ (mc st1 = [] /\ nSpace st1 = 0).
Proof.
  unfold Parse, bind at 1, Parse_begin, modify.
  set (stb := set_nSpace 0 (set_mc [] (set_sErr None st))).
  assert (Hb : same_counters st stb) by frame_leaf.
  assert (Hc : mc stb = [] /\ nSpace stb = 0) by (split; reflexivity).
  clearbody stb.
  destruct sLine as [| sLabel bPublic sOpCode sArgs].
  { intros E. inversion E; subst. now left. }
  unfold bind at 1.
  destruct (AutoLabel stb) as [[] st2 | e st2] eqn:Ea; [| discriminate].
  assert (H2 : same_counters_code stb st2).
  { eapply keeps_Ok; [| exact Ea]. frame keeps_AutoLabel. }
  unfold Parse_stmt. destruct (String.eqb sOpCode "EQU").
  { unfold bind. destruct (Parse_EQU _ _ _ st2) as [[] st3 | e st3] eqn:Ee;
      [| discriminate].
    intros E. inversion E; subst. left.
    assert (H3 : same_counters_code st2 st1).
    { eapply keeps_Ok; [| exact Ee]. frame keeps_Parse_EQU. }
    frame_leaf. }
  unfold bind at 1.
  destruct (Parse_label _ _ st2) as [[] st3 | e st3] eqn:El; [| discriminate].
  assert (H3 : same_counters_code st2 st3).
  { eapply keeps_Ok; [| exact El]. frame keeps_Parse_label. }
  destruct (String.eqb sOpCode "").
  { intros E. inversion E; subst. left. frame_leaf. }
  intros E. destruct (decide (sOpCode ∈ origin_names)) as [Ho | Ho].
  - right. pose proof (keeps_Ok _ _ _ _ _ (Parse_op_origin _ sArgs Ho) E).
    frame_leaf.
  - left. pose proof (keeps_Ok _ _ _ _ _ (Parse_op_other _ sArgs Ho) E).
    frame_leaf.
Qed.

(** ** The counters move with the code (C3) *)

(** Reading a field after assignments. *)
Ltac simpl_st :=
  unfold set_phase, set_nErr, set_sErr, set_mc, set_nSpace, set_enable,
    set_pseg, set_lseg, set_pc, set_lc, set_base, set_offset,
    set_bUpdate, set_begin, set_publics, set_labels, set_locals, set_files,
    set_handles, set_macros, set_fIn, set_fpos, set_binout, set_hexout,
    set_ref_fOut, set_fs in *;
  simpl in *.

Definition PC (st : Asm) : Z := seg_get (pc st) (pseg st).
Definition LC (st : Asm) : Z := seg_get (lc st) (lseg st).

(** What [emit] does inside an enabled block: both counters move on by
    the length of the code plus the space reserved, nothing else that
    the line set is touched. *)
Lemma emit_enabled (st st' : Asm) (rest : list bool) :
  enable st = true :: rest ->
  emit st = Ok tt st' ->
  pseg st' = pseg st /\ lseg st' = lseg st
  /\ mc st' = mc st /\ nSpace st' = nSpace st /\ enable st' = enable st
  /\ PC st' = PC st + (Z.of_nat (length (mc st)) + nSpace st)
  /\ LC st' = LC st + (Z.of_nat (length (mc st)) + nSpace st).
Proof.
  intros He. unfold emit, bind at 1, enable_top. rewrite He.
  unfold when, bind at 1, gets.
  destruct (0 <? Z.of_nat (length (mc st))).
  - unfold bind at 1. unfold bind at 1, get_LC, gets.
    unfold bind at 1.
    destruct (SetLoad (seg_get (lc st) (lseg st)) false st)
      as [[] st1 | e st1] eqn:ES; [| discriminate].
    assert (H1 : pseg st1 = pseg st /\ lseg st1 = lseg st /\ mc st1 = mc st
                 /\ nSpace st1 = nSpace st /\ enable st1 = enable st
                 /\ pc st1 = pc st /\ LC st1 = LC st).
    { revert ES. unfold SetLoad, bind, gets, when, modify, AsmErr, ret.
      rewrite Z.ltb_irrefl, andb_false_r. unfold LC. simpl_st.
      destruct (phase st =? 2); simpl.
      - destruct (binout st) as [b |];
          [match goal with
           | |- context [BinOut.SetAddr ?x ?y ?z] =>
               destruct (BinOut.SetAddr x y z); [| discriminate]
           end |];
          destruct (hexout st); intros E; inversion E; subst; cbn;
          rewrite seg_get_set_eq; auto 10.
      - intros E; inversion E; subst; cbn.
        rewrite seg_get_set_eq; auto 10. }
    destruct H1 as (P1 & P2 & P3 & P4 & P5 & P6 & P7).
    unfold bind, modify, ret. intros E. inversion E; subst; clear E.
    unfold PC, LC in *. rewrite P2 in P7. simpl_st.
    destruct (binout st1); simpl_st; destruct (hexout st1); simpl_st;
      rewrite ?seg_get_set_eq; repeat split; congruence.
  - unfold bind, modify, ret. intros E. inversion E; subst; clear E.
    unfold PC, LC. simpl_st. rewrite !seg_get_set_eq. auto 10.
Qed.


(** The final state of a result. *)
Definition state_of {A} (r : res A) : Asm :=
  match r with Ok _ st => st | Abort _ st => st end.


(** ** A phase error ends the run without output (C1) *)

(** The count of errors and the pass. *)
Definition same_pass (st st' : Asm) : Prop :=
  nErr st' = nErr st /\ phase st' = phase st.

#[local] Hint Unfold same_pass : frame.

(** In pass two, [Label] on a name whose definition holds another value
    reports the phase error, and does nothing else. *)
Lemma Label_phase_error (st : Asm) (sLabel : string) (bPublic bp : bool)
      (value : option Z) (w : Where) (label : Label.t) (v1 v2 : Z) :
  phase st = 2 ->
  Label_find st sLabel bPublic = (Some (w, label), bp) ->
  Label.value label = Some v1 ->
  v2 = match value with Some v => v | None => PC st end ->
  v1 <> v2 ->
  Label sLabel bPublic value st = AsmErr (msg_phase v1 v2) st.
Proof.
  intros Hp Hf Hv H2 Hne. unfold Label.
  assert (E : negb (v1 =? v2) = true)
    by (apply negb_true_iff, Z.eqb_neq; exact Hne).
  destruct value as [v |]; cbv zeta iota beta; rewrite Hf, Hp, Hv;
    unfold PC in H2; subst v2; cbn; rewrite E; reflexivity.
Qed.

(** What [AsmErr] leaves in the error of the line. *)
Lemma AsmErr_sErr (msg : string) (st : Asm) :
  exists st', AsmErr msg st = Ok tt st'
              /\ sErr st' = Some (match sErr st with Some e => e | None => msg end)
              /\ same_pass st st' /\ same_counters_code st st'
              /\ same_file st st'.
Proof.
  unfold AsmErr, modify. destruct (sErr st) eqn:E; eexists; split;
    try reflexivity; frame_leaf.
Qed.

(** The artifacts that are open: the hex file, the binary file and the
    reformatted source, in the order in which they are closed. *)
Definition artifacts (st : Asm) : list string :=
  match hexout st with Some h => [HexOut.sFile h] | None => [] end
  ++ match binout st with Some b => [BinOut.sFile b] | None => [] end
  ++ match ref_fOut st with Some p => [p] | None => [] end.

(** With errors counted, [finish] removes every artifact and leaves with
    [sys.exit (1)]. *)
Lemma finish_with_errors (args : Args) (st : Asm) :
  0 < nErr st ->
  ref_fOut st = given (a_output args) ->
  NoDup (artifacts st) ->
  (forall p, p ∈ artifacts st -> p ∈ fs st) ->
  exists st', finish args st = Abort (SysExit 1) st'
              /\ forall p, p ∈ artifacts st -> p ∉ fs st'.
Proof.
  intros Hn Hr Hd Hin.
  assert (Hn' : (0 <? nErr st) = true) by (apply Z.ltb_lt; exact Hn).
  unfold finish, close_sinks, artifacts in *.
  unfold bind, gets, modify, when, os_remove, raise, ret.
  rewrite Hn'. rewrite <- Hr.
  destruct (hexout st) as [h |] eqn:Eh, (binout st) as [b |] eqn:Eb,
    (ref_fOut st) as [p |] eqn:Er; simpl_st; rewrite ?Eh, ?Eb, ?Er; simpl_st.
  all: repeat match goal with
         | |- context [bool_decide (?x ∈ ?s)] =>
             rewrite (bool_decide_eq_true_2 (x ∈ s)); simpl_st;
             [| first [ assert (Hx : x ∈ fs st) by (apply Hin; set_solver);
                        apply NoDup_cons in Hd; set_solver
                      | assert (Hx : x ∈ fs st) by (apply Hin; set_solver);
                        apply NoDup_cons in Hd; destruct Hd as [Hd1 Hd];
                        apply NoDup_cons in Hd; set_solver ] ]
         end.
  all: rewrite ?Hn'; eexists; (split; [reflexivity |]); simpl_st; set_solver.
Qed.

(** The label a line defines, read in the state [st0] that [Parse] has
    reached after its first statements and the automatic label: an
    equate gives the label the value of its expression, any other line
    with a label gives it the program counter.  The last state is the one
    in which [Label] is called. *)
Inductive DefinesLabel (st0 : Asm)
  : SrcLine -> string -> bool -> option Z -> Asm -> Prop :=
| Defines_EQU (sLabel : string) (bPublic : bool) (sArgs : list Field)
              (v : Z) (stL : Asm) :
    EvalArith (fst (next_expr sArgs)) st0 = Ok v stL ->
    DefinesLabel st0 (Stmt (Some sLabel) bPublic "EQU" sArgs)
                 sLabel bPublic (Some v) stL
| Defines_here (sLabel : string) (bPublic : bool) (sOpCode : string)
               (sArgs : list Field) :
    sOpCode <> "EQU" -> sLabel <> "" ->
    DefinesLabel st0 (Stmt (Some sLabel) bPublic sOpCode sArgs)
                 sLabel bPublic None st0.

(** What is left of pass two once a line of source [iSource] has been
    assembled: the rest of the loop of [AsmPass] unless the line was
    [END], the end of [AsmPass], and the sources that follow. *)
Definition rest_of_pass_two (fuel : nat) (action : option Action)
                            (nEnable iSource : nat) (srcs : list string)
  : M unit :=
  match action with
  | None => AsmPass_loop fuel
  | Some ActX => ret tt
  | Some ActI => raise (NotEmbedded "INCLUDE")
  end ;;
  AsmPass_close nEnable ;;
  modify (fun st => set_locals (<[iSource := labels st]> (locals st)) st) ;;
  pass_two fuel (S iSource) srcs.

Lemma rest_of_pass_two_nErr (fuel : nat) (action : option Action)
      (nEnable iSource : nat) (srcs : list string) :
  keeps nErr_le (rest_of_pass_two fuel action nEnable iSource srcs).
Proof.
  unfold rest_of_pass_two.
  apply keeps_bind; try solve [frame_leaf].
  { destruct action as [[] |];
      [frame (@keeps_raise nErr_le) | frame (@keeps_ret nErr_le)
      | frame keeps_AsmPass_loop]. }
  intros _. apply keeps_bind; try solve [frame_leaf].
  { frame keeps_AsmPass_close. }
  intros _. apply keeps_bind; try solve [frame_leaf].
  { apply keeps_modify. frame_leaf. }
  intros _. frame keeps_pass_two.
Qed.

(** Once the line has an error, the rest of [Parse] keeps it and counts
    nothing. *)
Lemma Parse_op_keeps_error (sOpCode : string) (sArgs : list Field)
      (st st' : Asm) (a : option Action) :
  Parse_op sOpCode sArgs st = Ok a st' ->
  first_err st st' /\ same_pass st st'.
Proof.
  intros H. split; (eapply keeps_Ok; [| exact H]).
  - apply keeps_Parse_op_gen; try solve [frame_leaf].
    + intros _. frame keeps_Parse_REPT.
    + intros _. frame keeps_Parse_ENDM.
    + intros sty m. frame keeps_Parse_origin.
    + intros m. frame keeps_Parse_data.
    + frame keeps_Parse_Z80.
  - apply keeps_Parse_op_gen; try solve [frame_leaf].
    + intros _. frame keeps_Parse_REPT.
    + intros _. frame keeps_Parse_ENDM.
    + intros sty m. frame keeps_Parse_origin.
    + intros m. frame keeps_Parse_data.
    + frame keeps_Parse_Z80.
Qed.

Lemma emit_keeps_error (st st' : Asm) :
  emit st = Ok tt st' -> first_err st st' /\ same_pass st st'.
Proof.
  intros H. split; (eapply keeps_Ok; [| exact H]); frame keeps_emit.
Qed.

(** A line whose [Parse] ends with an error is counted once. *)
Lemma AsmLine_counts (sLine : SrcLine) (st stp st1 : Asm)
      (a action : option Action) (e : string) :
  Parse sLine st = Ok a stp -> sErr stp = Some e -> nErr stp = nErr st ->
  AsmLine sLine st = Ok action st1 ->
  sErr st1 = Some e /\ nErr st1 = nErr st + 1.
Proof.
  intros HP He Hn. unfold AsmLine, bind at 1. rewrite HP.
  unfold bind at 1, count_error, modify. rewrite He.
  unfold bind at 1.
  destruct (emit _) as [[] st3 | x st3] eqn:EE; [| discriminate].
  intros E. inversion E; subst; clear E.
  destruct (emit_keeps_error _ _ EE) as [H1 H2].
  revert H1 H2. frame_leaf.
Qed.


(** A state of pass two in which the label L1 holds 5 and both sinks are
    open, before a source file with no line left. *)
Definition phase_state : Asm :=
  set_fs {["out.bin"; "out.hex"]}
    (set_binout (Some (BinOut.init "out.bin" 255))
       (set_hexout (Some (HexOut.init "out.hex"))
          (set_labels
             {["$" := Label.mk "$" (Some SegA) (Some 0) "a.mac" 0;
               "l1" := Label.mk "L1" (Some SegA) (Some 5) "a.mac" 1]}
             (pass2_state MA)))).


(** ** Relative jumps (C4) *)

Lemma Code_byte (v : Z) (st : Asm) :
  0 <= v < 256 -> Code v st = Ok tt (set_mc (mc st ++ [v]) st).
Proof.
  intros H. unfold Code.
  replace ((0 <=? v) && (v <? 256)) with true; [reflexivity |].
  symmetry. apply andb_true_iff. split; [apply Z.leb_le | apply Z.ltb_lt]; lia.
Qed.

Lemma Code_low_byte (v : Z) (st : Asm) :
  Code (Z.land v 255) st = Ok tt (set_mc (mc st ++ [v mod 256]) st).
Proof.
  rewrite land_255_mod. apply Code_byte. apply Z.mod_pos_bound. lia.
Qed.

Lemma pass2_enabled_top (st : Asm) (b : bool) (rest : list bool) :
  enable st = b :: rest -> pass2_enabled st = Ok ((phase st =? 2) && b) st.
Proof.
  intros H. unfold pass2_enabled, bind, gets, enable_top, ret.
  destruct (phase st =? 2); [now rewrite H | reflexivity].
Qed.

Lemma cond_codes (cc : string) (byCond : Z) :
  dict_get cond cc = Some byCond -> 0 <= byCond <= 56.
Proof.
  unfold cond. cbn.
  repeat match goal with
         | |- context [String.eqb cc ?n] => destruct (String.eqb cc n)
         end; intros H; inversion H; lia.
Qed.

(** The displacement of a relative jump met in state [st]: the target
    less the address that follows the two bytes of the instruction. *)
Definition displacement (st : Asm) (target : Z) : Z :=
  target - (PC st + seg_get (base st) (pseg st) + 2).

(** Whether the displacement is checked and found out of range: in pass
    two, inside an enabled block, outside [-128..127]. *)
Definition out_of_range (st : Asm) (disp : Z) : bool :=
  (phase st =? 2) && hd false (enable st)
  && ((disp <? -128) || (127 <? disp)).


Lemma AsmErr_run (msg : string) (st : Asm) :
  AsmErr msg st
  = Ok tt (match sErr st with None => set_sErr (Some msg) st | Some _ => st end).
Proof. reflexivity. Qed.


(** The state of pass two at [L1: JR L1] after [ORG 0x100]. *)
Definition jr_state : Asm :=
  set_labels (<["L1" := Label.mk "L1" (Some SegA) (Some 256) "a.mac" 1]>
                (labels (pass2_state M80)))
    (set_pc (seg_set (pc (pass2_state M80)) SegA 256) (pass2_state M80)).


(** ** The case of labels (C7) *)

(** C7, as the specification has it, fails: set up for the style M80
    the flag is on, and a label is kept under its name as typed; for the
    three other styles the flag is off. *)
Lemma case_flag_default_counterexample :
  bLabCase (init (args_of M80 "a.mac") ∅ ∅) = true
  /\ bLabCase (init (args_of MA "a.mac") ∅ ∅) = false
  /\ bLabCase (init (args_of PASMO "a.mac") ∅ ∅) = false
  /\ bLabCase (init (args_of ZASM "a.mac") ∅ ∅) = false
  /\ labels (state_of (Label "Loop" false (Some 5) (pass2_state M80))) !! "loop"
     = None.
Proof.
  split; [reflexivity |]. split; [reflexivity |]. split; [reflexivity |].
  split; [reflexivity |]. vm_compute. reflexivity.
Qed.

Lemma Label_fresh (st : Asm) (sLabel : string) (bPublic : bool) (value : option Z) :
  bLabCase st = false ->
  publics st !! Py.lower sLabel = None ->
  labels st !! Py.lower sLabel = None ->
  Label sLabel bPublic value st
  = Ok tt (store_label (if bPublic then InPublics else InLocals)
             (Py.lower sLabel)
             (Label.mk sLabel
                (Some (match value with Some _ => SegA | None => pseg st end))
                (Some (match value with Some v => v | None => PC st end))
                (fst (match files st with t :: _ => t | [] => ("Command Line", 0) end))
                (snd (match files st with t :: _ => t | [] => ("Command Line", 0) end)))
             st).
Proof.
  intros Hcs Hp Hl. unfold Label, Label_find. rewrite Hcs. rewrite Hp.
  destruct value, bPublic; cbn; rewrite ?Hl; reflexivity.
Qed.

(** C7, amended: the flag is set on exactly when the style is M80.
    Whenever it is off, the definition of a name not met before is
    stored under the lowercased name, in the publics or in the locals of
    the file, the label keeping the name as typed; and a reference in an
    expression, in any casing, finds the value defined. *)
Theorem label_keys_follow_case_flag :
  (forall args dsk files0,
      bLabCase (init args dsk files0) = true <-> a_style args = M80)
  /\ (forall st sLabel bPublic value,
         bLabCase st = false ->
         publics st !! Py.lower sLabel = None ->
         labels st !! Py.lower sLabel = None ->
         exists st' l,
           Label sLabel bPublic value st = Ok tt st'
           /\ (if bPublic then publics st' else labels st') !! Py.lower sLabel
              = Some l
           /\ Label.name l = sLabel
           /\ Label.value l
              = Some (match value with Some v => v | None => PC st end)
           /\ forall ref,
               Py.lower ref = Py.lower sLabel ->
               ExprEval [TLab ref; TOp Comma] st'
               = Ok (match value with
                     | Some v => v + seg_get (base st) SegA
                     | None => PC st + seg_get (base st) (pseg st)
                     end) st').
Proof.
  split.
  - intros args dsk files0. simpl. apply bool_decide_eq_true.
  - intros st sLabel bPublic value Hcs Hp Hl.
    rewrite (Label_fresh st sLabel bPublic value Hcs Hp Hl).
    assert (Hlook : forall ref v st',
               bLabCase st' = false ->
               label_value (Py.lower sLabel) st' = Ok (Some v) st' ->
               Py.lower ref = Py.lower sLabel ->
               ExprEval [TLab ref; TOp Comma] st' = Ok v st').
    { intros ref v st' Hc Hv Href. unfold ExprEval. cbn [ExprEval_loop].
      unfold bind at 1, gets. rewrite Hc, Href.
      unfold bind at 1. rewrite Hv. cbn. unfold bind, gets. cbn.
      destruct (eval st'); reflexivity. }
    destruct bPublic, value as [v |]; (eexists; eexists);
      (split; [reflexivity |]); simpl_st; rewrite lookup_insert_eq;
      (split; [reflexivity |]); (split; [reflexivity |]);
      (split; [reflexivity |]); intros ref Href;
      (apply Hlook; [exact Hcs | | exact Href]);
      unfold label_value; simpl_st;
      rewrite ?Hl, ?lookup_insert_eq; reflexivity.
Qed.

Lemma label_keys_follow_case_flag_witness :
  exists st' l,
    Label "Loop" false (Some 5) (pass2_state MA) = Ok tt st'
    /\ labels st' !! "loop" = Some l
    /\ Label.name l = "Loop"
    /\ ExprEval [TLab "LOOP"; TOp Comma] st' = Ok 5 st'.
Proof.
  assert (Hcs : bLabCase (pass2_state MA) = false) by reflexivity.
  assert (Hp : publics (pass2_state MA) !! Py.lower "Loop" = None)
    by (vm_compute; reflexivity).
  assert (Hl : labels (pass2_state MA) !! Py.lower "Loop" = None)
    by (vm_compute; reflexivity).
  destruct (proj2 label_keys_follow_case_flag
              (pass2_state MA) "Loop" false (Some 5) Hcs Hp Hl)
    as (st' & l & H1 & H2 & H3 & _ & H5).
  exists st', l. split; [exact H1 |]. split; [exact H2 |].
  split; [exact H3 |].
  exact (H5 "LOOP" eq_refl).
Defined.

(** ** Repeats (C10) *)

(** What the loop of [AsmPass] does with a line it has read: the place
    in the file moves on, the line is counted and assembled. *)
Definition AsmRead (sLine : SrcLine) : M (option Action) :=
  modify (fun st => set_fpos (S (fpos st)) st) ;;
  count_line ;;
  AsmLine sLine.

(** Lines read and assembled one after the other. *)
Fixpoint AsmLines (ls : list SrcLine) : M unit :=
  match ls with
  | [] => ret tt
  | l :: ls' => AsmRead l ;; AsmLines ls'
  end.

(** [m], [n] times over. *)
Fixpoint times (n : nat) (m : M unit) : M unit :=
  match n with
  | O => ret tt
  | S n' => m ;; times n' m
  end.

(** A line that neither opens nor closes a repeat, and does not end the
    file. *)
Definition plain (sLine : SrcLine) : bool :=
  match sLine with
  | Blank => true
  | Stmt _ _ sOpCode _ =>
      negb (String.eqb sOpCode "REPT") && negb (String.eqb sOpCode "ENDM")
      && negb (String.eqb sOpCode "END")
  end.

Lemma bind_assoc {A B C} (m : M A) (f : A -> M B) (g : B -> M C) (st : Asm) :
  bind (bind m f) g st = bind m (fun a => bind (f a) g) st.
Proof. unfold bind. destruct (m st); reflexivity. Qed.

Lemma bind_ret_None {A} (m : M A) (st st' : Asm) (a : option Action) :
  bind m (fun _ => ret None) st = Ok a st' -> a = None.
Proof.
  unfold bind, ret. destruct (m st); intros E; inversion E; reflexivity.
Qed.

Lemma Parse_op_no_action (sOpCode : string) (sArgs : list Field)
                         (st st' : Asm) (a : option Action) :
  String.eqb sOpCode "END" = false ->
  Parse_op sOpCode sArgs st = Ok a st' -> a = None.
Proof.
  intros HE. unfold Parse_op. rewrite HE.
  repeat match goal with
         | |- (if ?c then _ else _) _ = _ -> _ =>
             destruct c; [apply bind_ret_None |]
         end.
  unfold bind at 1, gets.
  destruct (Parse_origin _ _ _); [apply bind_ret_None |].
  destruct (Parse_data _ _); [apply bind_ret_None |].
  unfold bind at 1. destruct (cpu_type st); try discriminate;
    apply bind_ret_None.
Qed.

Lemma Parse_no_action (sLine : SrcLine) (st st' : Asm) (a : option Action) :
  plain sLine = true -> Parse sLine st = Ok a st' -> a = None.
Proof.
  intros Hp. unfold Parse, bind at 1, Parse_begin, modify.
  destruct sLine as [| sLabel bPublic sOpCode sArgs].
  { intros E. inversion E. reflexivity. }
  unfold bind at 1. destruct (AutoLabel _) as [[] s1 | e s1]; [| discriminate].
  unfold Parse_stmt. destruct (String.eqb sOpCode "EQU");
    [apply bind_ret_None |].
  unfold bind at 1. destruct (Parse_label _ _ s1) as [[] s2 | e s2];
    [| discriminate].
  destruct (String.eqb sOpCode ""); [intros E; inversion E; reflexivity |].
  apply Parse_op_no_action.
  simpl in Hp. destruct (String.eqb sOpCode "END"); [| reflexivity].
  rewrite andb_false_r in Hp. discriminate.
Qed.

Lemma AsmLine_no_action (sLine : SrcLine) (st st' : Asm) (a : option Action) :
  plain sLine = true -> AsmLine sLine st = Ok a st' -> a = None.
Proof.
  intros Hp. unfold AsmLine, bind at 1.
  destruct (Parse sLine st) as [a1 s1 | e s1] eqn:E1; [| discriminate].
  apply (Parse_no_action _ _ _ _ Hp) in E1. subst a1.
  unfold bind. destruct (count_error s1); [| discriminate].
  destruct (emit _); [| discriminate].
  intros E. inversion E. reflexivity.
Qed.

(** A plain line leaves the file, the place in it and the repeats in
    progress alone. *)
Lemma plain_keeps_file (sLine : SrcLine) :
  plain sLine = true -> keeps same_file (AsmLine sLine).
Proof.
  intros Hp. unfold AsmLine.
  apply keeps_bind; try solve [frame_leaf].
  2: { intros a. apply keeps_bind; try solve [frame_leaf].
       - frame keeps_count_error.
       - intros _. apply keeps_bind; try solve [frame_leaf].
         + frame keeps_emit.
         + intros _. frame keeps_ret. }
  unfold Parse. apply keeps_bind; try solve [frame_leaf].
  { frame keeps_Parse_begin. }
  intros _. destruct sLine as [| sLabel bPublic sOpCode sArgs];
    [frame keeps_ret |].
  apply keeps_bind; try solve [frame_leaf].
  { frame keeps_AutoLabel. }
  intros _. unfold Parse_stmt. destruct (String.eqb sOpCode "EQU").
  { apply keeps_bind; try solve [frame_leaf].
    - frame keeps_Parse_EQU.
    - intros _. frame keeps_ret. }
  apply keeps_bind; try solve [frame_leaf].
  { frame keeps_Parse_label. }
  intros _. destruct (String.eqb sOpCode ""); [frame keeps_ret |].
  simpl in Hp. apply andb_true_iff in Hp. destruct Hp as [Hp _].
  apply andb_true_iff in Hp. destruct Hp as [HR HM].
  apply negb_true_iff in HR, HM.
  apply keeps_Parse_op_gen; try solve [frame_leaf];
    try solve [intros E; congruence].
  - intros sty m. frame keeps_Parse_origin.
  - intros m. frame keeps_Parse_data.
  - frame keeps_Parse_Z80.
Qed.

Lemma bind_run {A B} (m : M A) (k : A -> M B) (st : Asm) :
  bind m k st = match m st with
                | Ok a st' => k a st'
                | Abort e st' => Abort e st'
                end.
Proof. reflexivity. Qed.

(** One turn of the loop on a line that is there. *)
Lemma loop_read (fuel : nat) (st : Asm) (sLine : SrcLine) :
  fIn st !! fpos st = Some sLine ->
  AsmPass_loop (S fuel) st
  = bind (AsmRead sLine)
         (fun action => match action with
                        | Some ActI => raise (NotEmbedded "INCLUDE")
                        | Some ActX => ret tt
                        | None => AsmPass_loop fuel
                        end) st.
Proof.
  intros H. cbn [AsmPass_loop]. unfold AsmRead.
  unfold bind, readline, modify. rewrite H.
  destruct (count_line _); reflexivity.
Qed.

(** Reading a plain line: no action, and the place in the file is just
    after the line. *)
Lemma AsmRead_plain (sLine : SrcLine) (st st' : Asm) (a : option Action) :
  plain sLine = true ->
  AsmRead sLine st = Ok a st' ->
  a = None /\ macros st' = macros st /\ handles st' = handles st
  /\ fIn st' = fIn st /\ fpos st' = S (fpos st).
Proof.
  intros Hp. unfold AsmRead, bind at 1, modify. unfold bind at 1.
  destruct (count_line _) as [[] s1 | e s1] eqn:E1; [| discriminate].
  intros E2.
  assert (H1 : same_file (set_fpos (S (fpos st)) st) s1).
  { eapply keeps_Ok; [| exact E1]. frame keeps_count_line. }
  assert (H2 : same_file s1 st').
  { eapply keeps_Ok; [| exact E2]. now apply plain_keeps_file. }
  split; [now apply (AsmLine_no_action _ _ _ _ Hp E2) |].
  unfold same_file in *. simpl_st. intuition congruence.
Qed.

Lemma AsmLines_file (ls : list SrcLine) :
  Forall (fun l => plain l = true) ls ->
  forall st st',
    AsmLines ls st = Ok tt st' ->
    macros st' = macros st /\ handles st' = handles st
    /\ fIn st' = fIn st /\ fpos st' = (fpos st + length ls)%nat.
Proof.
  induction 1 as [| l ls Hl _ IH]; intros st st'.
  - intros E. inversion E. subst. rewrite Nat.add_0_r. auto.
  - cbn [AsmLines]. unfold bind at 1.
    destruct (AsmRead l st) as [a s1 | e s1] eqn:E1; [| discriminate].
    intros E2. apply (AsmRead_plain _ _ _ _ Hl) in E1.
    apply IH in E2. cbn [length]. intuition (try congruence; try lia).
Qed.

(** A stretch of plain lines in the file is run through in as many
    turns of the loop. *)
Lemma loop_lines (body : list SrcLine) :
  Forall (fun l => plain l = true) body ->
  forall (pre post : list SrcLine) (fuel : nat) (st : Asm),
    fIn st = (pre ++ body ++ post)%list ->
    fpos st = length pre ->
    AsmPass_loop (length body + fuel) st
    = bind (AsmLines body) (fun _ => AsmPass_loop fuel) st.
Proof.
  induction 1 as [| l body Hl _ IH]; intros pre post fuel st Hf Hp.
  - reflexivity.
  - cbn [length Nat.add AsmLines].
    rewrite (loop_read _ st l).
    2: { rewrite Hf, Hp. rewrite lookup_app_r by lia.
         now rewrite Nat.sub_diag. }
    rewrite bind_assoc. rewrite !(bind_run (AsmRead l)).
    destruct (AsmRead l st) as [a s1 | e s1] eqn:E1; [| reflexivity].
    destruct (AsmRead_plain _ _ _ _ Hl E1) as (-> & _ & _ & Hf1 & Hp1).
    apply (IH (pre ++ [l])%list post).
    + rewrite Hf1, Hf, <- app_assoc. reflexivity.
    + rewrite Hp1, Hp, length_app. simpl. lia.
Qed.

(** [REPT] in an enabled block: a count above zero opens a repeat that
    starts at the place reached in the file, any other count does
    nothing. *)
Lemma Parse_REPT_run (sArgs : list Field) (st st1 : Asm) (n : Z)
                     (en : list bool) :
  enable st = true :: en ->
  EvalArith (fst (next_expr sArgs)) st = Ok n st1 ->
  Parse_REPT sArgs st
  = if 0 <? n
    then match handles st1 with
         | h :: _ => Ok tt (set_macros (mkMacro "R" h (fpos st1) n :: macros st1) st1)
         | [] => Abort (PyExc "IndexError") st1
         end
    else Ok tt st1.
Proof.
  intros Hen He. unfold Parse_REPT. rewrite bind_run. unfold enable_top.
  rewrite Hen. unfold when at 1. rewrite bind_run, He.
  destruct (0 <? n); reflexivity.
Qed.

(** [ENDM] on a repeat of the file being read: the repeat is closed
    when its count runs out, and goes back to its first line
    otherwise. *)
Lemma Parse_ENDM_repeat (st : Asm) (h : nat) (hs : list nat) (p : nat) (k : Z)
                        (ms : list Macro) :
  macros st = mkMacro "R" h p k :: ms ->
  handles st = h :: hs ->
  Parse_ENDM st
  = Ok tt (if 0 <? k - 1
           then set_macros (mkMacro "R" h p (k - 1) :: ms)
                  (set_fpos p (set_macros ms st))
           else set_macros ms st).
Proof.
  intros Hm Hh. unfold Parse_ENDM. rewrite bind_run. unfold gets.
  rewrite Hm. rewrite bind_run. unfold modify. cbn.
  destruct (0 <? k - 1); [| reflexivity].
  cbn. simpl_st. rewrite Hh. rewrite Nat.eqb_refl. reflexivity.
Qed.

(** An [ENDM] line read by the loop: [Parse_ENDM] is all that acts on
    the file, the place in it and the repeats. *)
Lemma AsmRead_ENDM (sArgs : list Field) (st st' : Asm) (a : option Action) :
  AsmRead (Stmt None false "ENDM" sArgs) st = Ok a st' ->
  a = None
  /\ exists s1 s2, same_file (set_fpos (S (fpos st)) st) s1
                   /\ Parse_ENDM s1 = Ok tt s2
                   /\ same_file s2 st'.
Proof.
  intros E. unfold AsmRead in E. rewrite bind_run in E. unfold modify in E.
  rewrite bind_run in E.
  destruct (count_line _) as [[] s0 | e s0] eqn:E0; [| discriminate].
  assert (H0 : same_file (set_fpos (S (fpos st)) st) s0).
  { eapply keeps_Ok; [| exact E0]. frame keeps_count_line. }
  unfold AsmLine in E. rewrite bind_run in E.
  destruct (Parse _ s0) as [a1 s3 | e s3] eqn:EP; [| discriminate].
  unfold Parse in EP. rewrite bind_run in EP. unfold Parse_begin, modify in EP.
  rewrite bind_run in EP.
  destruct (AutoLabel _) as [[] sa | e sa] eqn:EA; [| discriminate].
  assert (Ha : same_file s0 sa).
  { pose proof (keeps_Ok same_file _ _ _ _ ltac:(frame keeps_AutoLabel) EA).
    frame_leaf. }
  change (Parse_stmt None false "ENDM" sArgs sa)
    with (bind Parse_ENDM (fun _ : unit => ret (@None Action)) sa) in EP.
  rewrite bind_run in EP.
  destruct (Parse_ENDM sa) as [[] s2 | e s2] eqn:EM; [| discriminate].
  inversion EP; subst a1 s3. clear EP.
  rewrite bind_run in E.
  destruct (count_error s2) as [[] s4 | e s4] eqn:E4; [| discriminate].
  rewrite bind_run in E.
  destruct (emit s4) as [[] s5 | e s5] eqn:E5; [| discriminate].
  inversion E; subst a st'. split; [reflexivity |].
  exists sa, s2. split; [frame_leaf |]. split; [exact EM |].
  pose proof (keeps_Ok same_file _ _ _ _ ltac:(frame keeps_count_error) E4).
  pose proof (keeps_Ok same_file _ _ _ _ ltac:(frame keeps_emit) E5).
  frame_leaf.
Qed.


Lemma count_line_run (st : Asm) (nm : string) (n : Z) (rest : list (string * Z)) :
  files st = (nm, n) :: rest ->
  count_line st = Ok tt (set_files ((nm, n + 1) :: rest) st).
Proof. intros H. unfold count_line. now rewrite H. Qed.

Lemma AutoLabel_run (st : Asm) (auto : Label.t) (nm : string) (n : Z)
                    (rest : list (string * Z)) :
  labels st !! "$" = Some auto ->
  files st = (nm, n) :: rest ->
  AutoLabel st
  = Ok tt (set_labels
             (<["$" := Label.mk (Label.name auto) (Some (pseg st))
                                (Some (seg_get (pc st) (pseg st)))
                                (Label.file auto) n]> (labels st)) st).
Proof. intros Hl Hf. unfold AutoLabel. now rewrite Hl, Hf. Qed.

(** A line without code goes through [emit], which moves the counters
    on by the space reserved when the block is enabled. *)
Lemma emit_nothing (st : Asm) (b : bool) (en : list bool) :
  enable st = b :: en -> mc st = [] ->
  emit st
  = Ok tt (if b
           then let st1 := set_pc (seg_set (pc st) (pseg st)
                                     (seg_get (pc st) (pseg st) + (0 + nSpace st))) st in
                set_lc (seg_set (lc st1) (lseg st1)
                          (seg_get (lc st1) (lseg st1) + (0 + nSpace st))) st1
           else st).
Proof.
  intros He Hm. unfold emit. rewrite bind_run. unfold enable_top. rewrite He.
  destruct b; [| reflexivity].
  unfold when at 1. rewrite bind_run. unfold gets at 1. rewrite Hm.
  cbn [length Z.of_nat]. change (0 <? 0) with false. unfold when at 1.
  reflexivity.
Qed.

(** An [ENDM] line met with no repeat in progress: the error is
    reported and counted, and the loop goes on with the next line. *)
Lemma AsmRead_ENDM_empty (sArgs : list Field) (st : Asm) (auto : Label.t)
                         (nm : string) (n : Z) (rest : list (string * Z))
                         (b : bool) (en : list bool) :
  macros st = [] ->
  labels st !! "$" = Some auto ->
  files st = (nm, n) :: rest ->
  enable st = b :: en ->
  exists st',
    AsmRead (Stmt None false "ENDM" sArgs) st = Ok None st'
    /\ sErr st' = Some "ENDM without macro"
    /\ nErr st' = nErr st + 1
    /\ macros st' = [] /\ handles st' = handles st
    /\ fIn st' = fIn st /\ fpos st' = S (fpos st).
Proof.
  intros Hm Hl Hf He.
  set (s0 := set_fpos (S (fpos st)) st).
  set (s1 := set_files ((nm, n + 1) :: rest) s0).
  set (s2 := set_nSpace 0 (set_mc [] (set_sErr None s1))).
  set (s3 := set_labels
               (<["$" := Label.mk (Label.name auto) (Some (pseg s2))
                                  (Some (seg_get (pc s2) (pseg s2)))
                                  (Label.file auto) (n + 1)]> (labels s2)) s2).
  set (s4 := set_sErr (Some "ENDM without macro") s3).
  set (s5 := set_nErr (nErr s4 + 1) s4).
  pose proof (emit_nothing s5 b en He eq_refl) as E6.
  match type of E6 with _ = Ok tt ?s => set (s6 := s) in E6 end.
  exists s6. split.
  - unfold AsmRead. rewrite bind_run. unfold modify. fold s0.
    rewrite bind_run. rewrite (count_line_run s0 nm n rest Hf). fold s1.
    unfold AsmLine. rewrite bind_run. unfold Parse. rewrite bind_run.
    unfold Parse_begin, modify. fold s2. rewrite bind_run.
    rewrite (AutoLabel_run s2 auto nm (n + 1) rest Hl eq_refl). fold s3.
    change (Parse_stmt None false "ENDM" sArgs s3)
      with (bind Parse_ENDM (fun _ : unit => ret (@None Action)) s3).
    rewrite bind_run. unfold Parse_ENDM. rewrite bind_run. unfold gets.
    change (macros s3) with (macros st). rewrite Hm.
    rewrite AsmErr_run. change (sErr s3) with (@None string). fold s4.
    unfold ret at 1. rewrite bind_run. unfold count_error, modify.
    change (sErr s4) with (Some "ENDM without macro"). fold s5.
    rewrite bind_run, E6. reflexivity.
  - clear E6. subst s6. destruct b; repeat split; try reflexivity; exact Hm.
Qed.

(** The lines of a repeat and the [ENDM] that closes them, read and
    assembled once. *)
Definition block (body : list SrcLine) (sArgs : list Field) : M unit :=
  AsmLines body ;; AsmRead (Stmt None false "ENDM" sArgs) ;; ret tt.

(** The loop, at the first line of such a block in the file, runs
    through the block and goes on from where [ENDM] leaves it. *)
Lemma loop_block (body : list SrcLine) (sArgs : list Field)
                 (pre post : list SrcLine) (fuel : nat) (st : Asm) :
  Forall (fun l => plain l = true) body ->
  fIn st = (pre ++ body ++ Stmt None false "ENDM" sArgs :: post)%list ->
  fpos st = length pre ->
  AsmPass_loop (length body + S fuel) st
  = bind (block body sArgs) (fun _ => AsmPass_loop fuel) st.
Proof.
  intros Hb Hf Hp.
  rewrite (loop_lines body Hb pre _ (S fuel) st Hf Hp).
  unfold block. rewrite bind_assoc. rewrite !(bind_run (AsmLines body)).
  destruct (AsmLines body st) as [[] s | e s] eqn:E; [| reflexivity].
  destruct (AsmLines_file body Hb _ _ E) as (_ & _ & Hf1 & Hp1).
  rewrite (loop_read fuel s (Stmt None false "ENDM" sArgs)).
  2: { rewrite Hf1, Hp1, Hf, Hp. rewrite lookup_app_r by lia.
       rewrite lookup_app_r by lia.
       replace (length pre + length body - length pre - length body)%nat
         with 0%nat by lia. reflexivity. }
  rewrite bind_assoc. rewrite !(bind_run (AsmRead _)).
  destruct (AsmRead _ s) as [a s' | e s'] eqn:E'; [| reflexivity].
  apply AsmRead_ENDM in E'. destruct E' as [-> _]. reflexivity.
Qed.

(** What a block leaves of a repeat in progress that started at its
    first line: one turn less to go, from that line again, or the repeat
    closed and the next line. *)
Lemma block_step (body : list SrcLine) (sArgs : list Field)
                 (pre post : list SrcLine) (st st' : Asm)
                 (h : nat) (hs : list nat) (ms : list Macro) (n : nat) :
  Forall (fun l => plain l = true) body ->
  fIn st = (pre ++ body ++ Stmt None false "ENDM" sArgs :: post)%list ->
  fpos st = length pre ->
  handles st = h :: hs ->
  macros st = mkMacro "R" h (length pre) (Z.of_nat (S n)) :: ms ->
  block body sArgs st = Ok tt st' ->
  handles st' = h :: hs /\ fIn st' = fIn st
  /\ match n with
     | O => macros st' = ms /\ fpos st' = (length pre + length body + 1)%nat
     | S n' => macros st' = mkMacro "R" h (length pre) (Z.of_nat (S n')) :: ms
               /\ fpos st' = length pre
     end.
Proof.
  intros Hb Hf Hp Hh Hm. unfold block. rewrite bind_run.
  destruct (AsmLines body st) as [[] s | e s] eqn:E; [| discriminate].
  destruct (AsmLines_file body Hb _ _ E) as (Hm1 & Hh1 & Hf1 & Hp1).
  rewrite bind_run.
  destruct (AsmRead _ s) as [a s' | e s'] eqn:E'; [| discriminate].
  intros E2. inversion E2; subst s'. clear E2.
  apply AsmRead_ENDM in E'. destruct E' as (_ & s1 & s2 & H1 & H2 & H3).
  unfold same_file in H1, H3. simpl_st.
  destruct H1 as (A1 & A2 & A3 & A4). destruct H3 as (B1 & B2 & B3 & B4).
  rewrite (Parse_ENDM_repeat s1 h hs (length pre) (Z.of_nat (S n)) ms) in H2
    by congruence.
  inversion H2 as [H2']. clear H2.
  destruct n as [| n'].
  - change (0 <? Z.of_nat 1 - 1) with false in H2'. subst s2. simpl_st.
    repeat split; try congruence. rewrite B4, A4, Hp1, Hp. lia.
  - replace (0 <? Z.of_nat (S (S n')) - 1) with true in H2'
      by (symmetry; apply Z.ltb_lt; lia).
    replace (Z.of_nat (S (S n')) - 1) with (Z.of_nat (S n')) in H2' by lia.
    subst s2. simpl_st. repeat split; congruence.
Qed.

(** A repeat of [n + 1] turns in progress at the first line of its
    block: the loop runs the block [n + 1] times over and goes on after
    it. *)
Lemma loop_repeat (body : list SrcLine) (sArgs : list Field)
                  (pre post : list SrcLine) (h : nat) (hs : list nat)
                  (ms : list Macro) (fuel : nat) :
  Forall (fun l => plain l = true) body ->
  forall (n : nat) (st : Asm),
    fIn st = (pre ++ body ++ Stmt None false "ENDM" sArgs :: post)%list ->
    fpos st = length pre ->
    handles st = h :: hs ->
    macros st = mkMacro "R" h (length pre) (Z.of_nat (S n)) :: ms ->
    AsmPass_loop (S n * (length body + 1) + fuel) st
    = bind (times (S n) (block body sArgs)) (fun _ => AsmPass_loop fuel) st
    /\ forall st',
        times (S n) (block body sArgs) st = Ok tt st' ->
        macros st' = ms /\ handles st' = h :: hs /\ fIn st' = fIn st
        /\ fpos st' = (length pre + length body + 1)%nat.
Proof.
  intros Hb. induction n as [| n IH]; intros st Hf Hp Hh Hm.
  - cbn [times]. split.
    + replace (1 * (length body + 1) + fuel)%nat
        with (length body + S fuel)%nat by lia.
      rewrite (loop_block body sArgs pre post fuel st Hb Hf Hp).
      rewrite bind_assoc. rewrite !(bind_run (block _ _)).
      destruct (block body sArgs st) as [[] s | e s]; reflexivity.
    + intros st'. rewrite bind_run.
      destruct (block body sArgs st) as [[] s | e s] eqn:E; [| discriminate].
      intros E2. inversion E2; subst st'.
      destruct (block_step body sArgs pre post st s h hs ms 0 Hb Hf Hp Hh Hm E)
        as (Q1 & Q2 & Q3 & Q4).
      auto.
  - change (times (S (S n)) (block body sArgs))
      with (bind (block body sArgs) (fun _ => times (S n) (block body sArgs))).
    split.
    + replace (S (S n) * (length body + 1) + fuel)%nat
        with (length body + S (S n * (length body + 1) + fuel))%nat by lia.
      rewrite (loop_block body sArgs pre post _ st Hb Hf Hp).
      rewrite bind_assoc. rewrite !(bind_run (block _ _)).
      destruct (block body sArgs st) as [[] s | e s] eqn:E; [| reflexivity].
      destruct (block_step body sArgs pre post st s h hs ms (S n)
                  Hb Hf Hp Hh Hm E) as (Q1 & Q2 & Q3 & Q4).
      apply IH; congruence.
    + intros st'. rewrite bind_run.
      destruct (block body sArgs st) as [[] s | e s] eqn:E; [| discriminate].
      destruct (block_step body sArgs pre post st s h hs ms (S n)
                  Hb Hf Hp Hh Hm E) as (Q1 & Q2 & Q3 & Q4).
      intros E2.
      destruct (IH s ltac:(congruence) Q4 Q1 Q3) as [_ IH2].
      destruct (IH2 st' E2) as (R1 & R2 & R3 & R4).
      repeat split; congruence.
Qed.

(** Pass two at the head of a file of the lines given. *)
Definition rept_state (lines : list SrcLine) : Asm :=
  set_fIn lines (pass2_state M80).

(** [REPT 2 / REPT 0 / DB 0AAH / ENDM / ENDM] *)
Definition nested_repeat : list SrcLine :=
  [Stmt None false "REPT" [num 2];
   Stmt None false "REPT" [num 0];
   Stmt None false "DB" [num 170];
   Stmt None false "ENDM" [];
   Stmt None false "ENDM" []].



(** [REPT 3 / DB 0AAH / ENDM] *)
Definition simple_repeat : list SrcLine :=
  [Stmt None false "REPT" [num 3];
   Stmt None false "DB" [num 170];
   Stmt None false "ENDM" []].

